(** * CharZapper: the snippet engine of [charzapper.py]

    A shallow embedding of the matching engine of [charzapper.py]
    ([build_dictionary], [update_text], the key handling of [run] and
    [submit]) together with the properties stated about it.

    Conventions of the model.
    - A Python [str] is a [string]; the case and whitespace methods are
      the ASCII fragment of Python's ([A-Z]/[a-z] are the only cased
      characters, the white space of [str.isspace] below code point 128).
      Bytes from 128 on are treated as caseless and non-blank, so the
      model is exact on ASCII text.
    - A Python [dict] that is only looked up by key is a [gmap]; a
      [dict] whose iteration order is observed ([tag_matches],
      [char_matches], the parsed YAML document) is an association list
      in insertion order.
    - A Python [set] is a [gset]; iterating it is [elements], a fixed
      but otherwise unspecified order, as in Python.
      Closed results that depend on the order of candidates with equal
      counts hold for that order only; the general statements do not
      depend on it.
    - The parsed YAML document is typed: an entry is a mapping whose
      [name], if present, is a string and whose [tags] and [chars], if
      present, are lists of strings ([Data]). Documents of another
      shape (an entry without a mapping, a null list, a name that is not
      a string) are outside the model.
    - [run] covers the handling of events; [update] and [render], which
      draw and keep the blink timer, are left out.
    - Exceptions are explicit: a function that can raise returns a
      [result]. *)

From Stdlib Require Import Ascii String ZArith Lia.
From stdpp Require Import gmap strings list fin_maps sorting.

#[local] Set Warnings "-clear-no-such-hyp".

Local Open Scope string_scope.
Local Open Scope list_scope.

(** ** Exceptions *)

Inductive exn := KeyError | IndexError | AssertionError.

Inductive result (A : Type) :=
  | Ok (a : A)
  | Raise (e : exn).
Arguments Ok {A} a.
Arguments Raise {A} e.

#[global] Instance exn_eq_dec : EqDecision exn.
Proof. solve_decision. Defined.

#[global] Instance result_ret : MRet result := fun A a => Ok a.
#[global] Instance result_bind : MBind result := fun A B f m =>
  match m with
  | Ok a => f a
  | Raise e => Raise e
  end.

(** [raises m]: the computation ends in an exception. *)
Definition raises {A} (m : result A) : Prop :=
  match m with Ok _ => False | Raise _ => True end.

(** ** Python strings (ASCII fragment) *)

Module Str.

Definition code (c : ascii) : nat := nat_of_ascii c.

Definition is_upper_char (c : ascii) : bool :=
  (65 <=? code c)%nat && (code c <=? 90)%nat.

Definition is_lower_char (c : ascii) : bool :=
  (97 <=? code c)%nat && (code c <=? 122)%nat.

(** [str.isspace] on one character: TAB, LF, VT, FF, CR, the four
    separators FS, GS, RS, US, and the space. *)
Definition is_space (c : ascii) : bool :=
  ((9 <=? code c)%nat && (code c <=? 13)%nat)
  || ((28 <=? code c)%nat && (code c <=? 32)%nat).

Definition lower_char (c : ascii) : ascii :=
  if is_upper_char c then ascii_of_nat (code c + 32) else c.

Definition upper_char (c : ascii) : ascii :=
  if is_lower_char c then ascii_of_nat (code c - 32) else c.

(** [s.lower()] and [s.upper()] *)
Fixpoint lower (s : string) : string :=
  match s with
  | EmptyString => EmptyString
  | String c r => String (lower_char c) (lower r)
  end.

Fixpoint upper (s : string) : string :=
  match s with
  | EmptyString => EmptyString
  | String c r => String (upper_char c) (upper r)
  end.

Fixpoint existsb_char (p : ascii -> bool) (s : string) : bool :=
  match s with
  | EmptyString => false
  | String c r => p c || existsb_char p r
  end.

(** [s.isupper()]: at least one cased character and no lower-case one. *)
Definition isupper (s : string) : bool :=
  existsb_char is_upper_char s && negb (existsb_char is_lower_char s).

(** [s.islower()]: at least one cased character and no upper-case one. *)
Definition islower (s : string) : bool :=
  existsb_char is_lower_char s && negb (existsb_char is_upper_char s).

(** [not s]: the truth value of a string is its non-emptiness. *)
Definition is_empty (s : string) : bool :=
  match s with EmptyString => true | String _ _ => false end.

Fixpoint lstrip (s : string) : string :=
  match s with
  | EmptyString => EmptyString
  | String c r => if is_space c then lstrip r else s
  end.

Fixpoint rstrip (s : string) : string :=
  match s with
  | EmptyString => EmptyString
  | String c r =>
      let r' := rstrip r in
      if is_space c && is_empty r' then EmptyString else String c r'
  end.

(** [s.strip()] *)
Definition strip (s : string) : string := rstrip (lstrip s).

(** [s.split()]: the maximal runs of non-blank characters. [cur] is the
    word being read, in reverse. *)
Fixpoint split_from (cur : list ascii) (s : string) : list string :=
  match s with
  | EmptyString =>
      match cur with
      | [] => []
      | _ => [string_of_list_ascii (rev cur)]
      end
  | String c r =>
      if is_space c then
        match cur with
        | [] => split_from [] r
        | _ => string_of_list_ascii (rev cur) :: split_from [] r
        end
      else split_from (c :: cur) r
  end.

Definition split (s : string) : list string := split_from [] s.

(** [s[i]] for a string, with Python's negative indices. *)
Definition getitem (s : string) (i : Z) : result string :=
  let n := Z.of_nat (String.length s) in
  let j := (if i <? 0 then n + i else i)%Z in
  if ((0 <=? j) && (j <? n))%Z then
    match String.get (Z.to_nat j) s with
    | Some c => Ok (String c EmptyString)
    | None => Raise IndexError
    end
  else Raise IndexError.

(** [s[:-1]] *)
Fixpoint drop_last (s : string) : string :=
  match s with
  | EmptyString => EmptyString
  | String c EmptyString => EmptyString
  | String c r => String c (drop_last r)
  end.

(** [for ch in word]: the characters of a string, as one-character
    strings. *)
Fixpoint chars_of (s : string) : list string :=
  match s with
  | EmptyString => []
  | String c r => String c EmptyString :: chars_of r
  end.

End Str.

(** ** Python containers *)

(** [d[k]] on a [list]: Python's indexing, negative indices included. *)
Definition list_getitem {A} (l : list A) (i : Z) : result A :=
  let n := Z.of_nat (length l) in
  let j := (if i <? 0 then n + i else i)%Z in
  if ((0 <=? j) && (j <? n))%Z then
    match l !! Z.to_nat j with
    | Some x => Ok x
    | None => Raise IndexError
    end
  else Raise IndexError.

(** [l[i] = x] *)
Definition list_setitem {A} (l : list A) (i : Z) (x : A) : result (list A) :=
  let n := Z.of_nat (length l) in
  let j := (if i <? 0 then n + i else i)%Z in
  if ((0 <=? j) && (j <? n))%Z then Ok (<[Z.to_nat j := x]> l)
  else Raise IndexError.

(** [for x in l: s = body(x, s)], stopping at the first exception. *)
Fixpoint for_each {A S} (body : A -> S -> result S) (l : list A) (s : S)
  : result S :=
  match l with
  | [] => Ok s
  | x :: r => s' ← body x s; for_each body r s'
  end.

(** An insertion-ordered [dict] from snippets to match counts. *)
Abbreviation counter := (list (string * nat)).

Fixpoint counter_get (k : string) (m : counter) : option nat :=
  match m with
  | [] => None
  | (k', n) :: r => if decide (k = k') then Some n else counter_get k r
  end.

(** The number of matches counted for [k]; [0] for an absent key. *)
Definition count_of (k : string) (m : counter) : nat :=
  default 0 (counter_get k m).

(** [try: m[k] += 1 / except KeyError: m[k] = 1]. An existing key keeps
    its position, a new key goes last. *)
Fixpoint incr (k : string) (m : counter) : counter :=
  match m with
  | [] => [(k, 1)]
  | (k', n) :: r =>
      if decide (k = k') then (k', S n) :: r else (k', n) :: incr k r
  end.

(** Stable insertion into a list sorted by value: the new item goes
    before the items with an equal value. *)
Fixpoint insert_by_value (x : string * nat) (l : counter) : counter :=
  match l with
  | [] => [x]
  | y :: r => if (x.2 <=? y.2)%nat then x :: y :: r
              else y :: insert_by_value x r
  end.

(** The items of the dict in ascending order of value, items with equal
    values in their dict order (Python's [sorted] is stable). *)
Fixpoint sort_by_value (m : counter) : counter :=
  match m with
  | [] => []
  | x :: r => insert_by_value x (sort_by_value r)
  end.

(** [sorted(m, key=m.get)]: the keys of [m] sorted by their value. *)
Definition sorted_keys (m : counter) : list string := (sort_by_value m).*1.

(** ** The dictionary and its indexes *)

(** One value of the parsed [snippets.yaml]: a mapping with the key
    [name] and the optional keys [tags] and [chars]; [None] is an absent
    key. *)
Record Data := {
  d_name : option string;
  d_tags : option (list string);
  d_chars : option (list string)
}.

(** The lookup tables that [build_dictionary] fills. *)
Record Index := {
  tags : gmap string (gset string);
  chars : gmap string (gset string);
  lowercase_names : gmap string string;
  names : gmap string string;
  lowercase_snippets : gmap string string
}.

Definition empty_index : Index :=
  {| tags := ∅; chars := ∅; lowercase_names := ∅; names := ∅;
     lowercase_snippets := ∅ |}.

(** [try: m[key].add(w) / except KeyError: m[key] = set([w])] *)
Definition add_to (m : gmap string (gset string)) (key w : string)
  : gmap string (gset string) :=
  match m !! key with
  | Some s => <[key := s ∪ {[w]}]> m
  | None => <[key := {[w]}]> m
  end.

(** The body of the loop of [build_dictionary] for one item. *)
Definition build_entry (item : string * Data) (idx : Index) : result Index :=
  let '(word, data) := item in
  let lowercase_word := Str.lower word in
  let snippets' := <[lowercase_word := word]> (lowercase_snippets idx) in
  let tag_data := default [] (d_tags data) in
  let tags' :=
    foldl (fun m tag => add_to m tag lowercase_word) (tags idx) tag_data in
  let char_data := default [] (d_chars data) in
  let chars' :=
    foldl (fun m ch => add_to m ch lowercase_word) (chars idx) char_data in
  match d_name data with
  | None => Raise KeyError
  | Some name =>
      if Str.is_empty name then Raise AssertionError else
      let lowercase_name := Str.lower name in
      if Str.is_empty lowercase_name then Raise AssertionError else
      Ok {| tags := tags'; chars := chars';
            lowercase_names :=
              <[lowercase_name := lowercase_word]> (lowercase_names idx);
            names := <[name := lowercase_word]> (names idx);
            lowercase_snippets := snippets' |}
  end.

Definition build_dictionary (dictionary : list (string * Data))
  : result Index :=
  for_each build_entry dictionary empty_index.

(** ** The application state *)

Definition MAX_MATCHES : nat := 10.

(** The attributes of [App] that the engine reads or writes. The window,
    fonts and blink timer are left out, as are [best_match] and
    [best_match_shift], which are written but never read. [clipboard]
    is the text last passed to [pyperclip.copy] and [stdout] the lines
    printed. [has_leading_uppercase] and [is_all_lowercase] are created
    by [update_text] and only read after it has set them. *)
Record App := {
  index : Index;
  tag_matches : counter;
  char_matches : counter;
  matches : list string;
  matches_shift : list string;
  shift : bool;
  redraw_screen : bool;
  has_leading_uppercase : bool;
  is_all_lowercase : bool;
  input_text : string;
  done : bool;
  selection : Z;
  clipboard : string;
  stdout : list string
}.

Definition set_tag_matches (v : counter) (a : App) : App :=
  let 'Build_App i _ cm ms msh sh rd hl al it dn sl cb so := a in
  Build_App i v cm ms msh sh rd hl al it dn sl cb so.
Definition set_char_matches (v : counter) (a : App) : App :=
  let 'Build_App i tm _ ms msh sh rd hl al it dn sl cb so := a in
  Build_App i tm v ms msh sh rd hl al it dn sl cb so.
Definition set_matches (v : list string) (a : App) : App :=
  let 'Build_App i tm cm _ msh sh rd hl al it dn sl cb so := a in
  Build_App i tm cm v msh sh rd hl al it dn sl cb so.
Definition set_matches_shift (v : list string) (a : App) : App :=
  let 'Build_App i tm cm ms _ sh rd hl al it dn sl cb so := a in
  Build_App i tm cm ms v sh rd hl al it dn sl cb so.
Definition set_shift (v : bool) (a : App) : App :=
  let 'Build_App i tm cm ms msh _ rd hl al it dn sl cb so := a in
  Build_App i tm cm ms msh v rd hl al it dn sl cb so.
Definition set_redraw_screen (v : bool) (a : App) : App :=
  let 'Build_App i tm cm ms msh sh _ hl al it dn sl cb so := a in
  Build_App i tm cm ms msh sh v hl al it dn sl cb so.
Definition set_has_leading_uppercase (v : bool) (a : App) : App :=
  let 'Build_App i tm cm ms msh sh rd _ al it dn sl cb so := a in
  Build_App i tm cm ms msh sh rd v al it dn sl cb so.
Definition set_is_all_lowercase (v : bool) (a : App) : App :=
  let 'Build_App i tm cm ms msh sh rd hl _ it dn sl cb so := a in
  Build_App i tm cm ms msh sh rd hl v it dn sl cb so.
Definition set_input_text (v : string) (a : App) : App :=
  let 'Build_App i tm cm ms msh sh rd hl al _ dn sl cb so := a in
  Build_App i tm cm ms msh sh rd hl al v dn sl cb so.
Definition set_done (v : bool) (a : App) : App :=
  let 'Build_App i tm cm ms msh sh rd hl al it _ sl cb so := a in
  Build_App i tm cm ms msh sh rd hl al it v sl cb so.
Definition set_selection (v : Z) (a : App) : App :=
  let 'Build_App i tm cm ms msh sh rd hl al it dn _ cb so := a in
  Build_App i tm cm ms msh sh rd hl al it dn v cb so.
Definition set_clipboard (v : string) (a : App) : App :=
  let 'Build_App i tm cm ms msh sh rd hl al it dn sl _ so := a in
  Build_App i tm cm ms msh sh rd hl al it dn sl v so.
Definition set_stdout (v : list string) (a : App) : App :=
  let 'Build_App i tm cm ms msh sh rd hl al it dn sl cb _ := a in
  Build_App i tm cm ms msh sh rd hl al it dn sl cb v.

(** [App.__init__], for an already parsed dictionary. *)
Definition init (dictionary : list (string * Data)) : result App :=
  idx ← build_dictionary dictionary;
  Ok {| index := idx; tag_matches := []; char_matches := [];
        matches := []; matches_shift := []; shift := false;
        redraw_screen := true; has_leading_uppercase := false;
        is_all_lowercase := false; input_text := ""; done := false;
        selection := 0; clipboard := ""; stdout := [] |}.

(** ** [update_text] *)

(** The body of [for i in range(len(self.matches))]: the shift form of
    slot [i] is written first, then the primary form is overwritten
    according to the case of the input. *)
Definition adapt_at (hlu ial : bool) (i : nat)
    (st : list string * list string) : result (list string * list string) :=
  let '(ms, msh) := st in
  m ← list_getitem ms (Z.of_nat i);
  msh ← list_setitem msh (Z.of_nat i) (Str.upper m);
  if hlu then
    u ← list_getitem msh (Z.of_nat i);
    ms ← list_setitem ms (Z.of_nat i) u;
    Ok (ms, msh)
  else if ial then
    m ← list_getitem ms (Z.of_nat i);
    ms ← list_setitem ms (Z.of_nat i) (Str.lower m);
    Ok (ms, msh)
  else Ok (ms, msh).

(** The common tail of the tag and the character strategy: rank the
    counted snippets, keep [MAX_MATCHES] of them and adapt their case in
    place. The [None] placeholders of [[None] * len(self.matches)] are
    empty strings here; every one of them is overwritten by the loop. *)
Definition ranked_matches (hlu ial : bool) (m : counter)
  : result (list string * list string) :=
  let ms := take MAX_MATCHES (sorted_keys m) in
  let msh := replicate (length ms) "" in
  for_each (adapt_at hlu ial) (seq 0 (length ms)) (ms, msh).

(** [for snippet in snippets: count[snippet] += 1] *)
Definition count_snippets (snippets : list string) (m : counter) : counter :=
  foldl (fun m snippet => incr snippet m) m snippets.

(** The tag loop: every word of the input that is a key of [tags]
    counts once for each snippet of its set. *)
Definition count_tags (tgs : gmap string (gset string)) (words : list string)
    (m : counter) : counter :=
  foldl (fun m word =>
           match tgs !! word with
           | Some snippets => count_snippets (elements snippets) m
           | None => m
           end) m words.

(** The character loop for one character [ch]. [used_chars.add(ch)] sits
    inside the loop over the snippets of [ch]. *)
Definition count_char (chs : gmap string (gset string))
    (st : gset string * counter) (ch : string) : gset string * counter :=
  if decide (ch ∈ st.1) then st
  else
    match chs !! ch with
    | Some snippets =>
        foldl (fun st snippet => ({[ch]} ∪ st.1, incr snippet st.2))
              st (elements snippets)
    | None => st
    end.

Definition count_chars (chs : gmap string (gset string))
    (words : list string) (st : gset string * counter)
  : gset string * counter :=
  foldl (fun st word => foldl (count_char chs) st (Str.chars_of word))
        st words.

(** The character strategy, reached when no tag matched. *)
Definition update_text_chars (self : App) (words : list string)
  : result (App * option bool) :=
  let used_chars : gset string := ∅ in
  let '(_, cm) :=
    count_chars (chars (index self)) words (used_chars, char_matches self) in
  let self := set_char_matches cm self in
  match char_matches self with
  | _ :: _ =>
      '(ms, msh) ← ranked_matches (has_leading_uppercase self)
                                  (is_all_lowercase self) (char_matches self);
      Ok (set_matches ms (set_matches_shift msh self), Some true)
  | [] => Ok (self, Some false)
  end.

(** The tag strategy, reached when neither exact lookup hit. *)
Definition update_text_tags (self : App) (input_text' : string)
  : result (App * option bool) :=
  let words := Str.split input_text' in
  let self :=
    set_tag_matches
      (count_tags (tags (index self)) words (tag_matches self)) self in
  match tag_matches self with
  | _ :: _ =>
      '(ms, msh) ← ranked_matches (has_leading_uppercase self)
                                  (is_all_lowercase self) (tag_matches self);
      Ok (set_matches ms (set_matches_shift msh self), Some true)
  | [] => update_text_chars self words
  end.

(** The two exact lookups; a missing key is the [KeyError] that the
    source catches and passes over. *)
Definition update_text_exact (self : App) (input_text' : string)
  : result (App * option bool) :=
  match lowercase_snippets (index self) !! input_text' with
  | Some best_match =>
      let best_match_shift := Str.upper best_match in
      let best_match :=
        if has_leading_uppercase self then best_match_shift
        else best_match in
      Ok (set_matches_shift [best_match_shift]
            (set_matches [best_match] self), Some true)
  | None =>
      match lowercase_names (index self) !! input_text' with
      | Some best_match =>
          let best_match_shift := Str.upper best_match in
          let best_match :=
            if has_leading_uppercase self then best_match_shift
            else best_match in
          Ok (set_matches_shift [best_match_shift]
                (set_matches [best_match] self), Some true)
      | None => update_text_tags self input_text'
      end
  end.

(** [update_text]: the new state and the returned value ([None] for the
    bare [return] on blank input). *)
Definition update_text (self : App) : result (App * option bool) :=
  let self := set_redraw_screen true self in
  let self := set_tag_matches [] self in
  let self := set_char_matches [] self in
  let self := set_matches [] self in
  let self := set_shift false self in
  let self := set_selection 0 self in
  let self := set_matches [] self in
  let self := set_matches_shift [] self in
  let input_text' := Str.strip (input_text self) in
  if Str.is_empty input_text' then Ok (self, None)
  else
    first ← Str.getitem (input_text self) 0;
    let self := set_has_leading_uppercase (Str.isupper first) self in
    let self := set_is_all_lowercase (Str.islower (input_text self)) self in
    let input_text' := Str.lower (input_text self) in
    update_text_exact self input_text'.

(** ** Keys, [submit], [cancel] and the event loop *)

Inductive key :=
  | K_ESCAPE | K_LSHIFT | K_RSHIFT | K_BACKSPACE | K_RETURN | K_TAB
  | K_LEFT | K_RIGHT
  | K_OTHER.

(** A pygame event; [KEYDOWN] carries [event.unicode]. *)
Inductive event :=
  | QUIT
  | KEYDOWN (k : key) (unicode : string)
  | KEYUP (k : key)
  | OTHER_EVENT.

Definition submit (self : App) : result App :=
  result ← (if shift self
            then list_getitem (matches_shift self) (selection self)
            else list_getitem (matches self) (selection self));
  let self := set_clipboard result self in
  let self := set_done true self in
  Ok (set_stdout (stdout self ++ [result]) self).

Definition cancel (self : App) : App := set_done true self.

(** [len(self.matches)] *)
Definition len {A} (l : list A) : Z := Z.of_nat (length l).

(** [if self.matches:] *)
Definition truthy {A} (l : list A) : bool :=
  match l with [] => false | _ :: _ => true end.

Definition select_prev (self : App) : App :=
  if truthy (matches self) then
    set_redraw_screen true
      (set_selection ((selection self - 1) `mod` len (matches self)) self)
  else self.

Definition select_next (self : App) : App :=
  if truthy (matches self) then
    set_redraw_screen true
      (set_selection ((selection self + 1) `mod` len (matches self)) self)
  else self.

(** The body of [for event in pygame.event.get()], without the [break]
    on [QUIT], which [process_events] performs. *)
Definition handle_event (self : App) (ev : event) : result App :=
  match ev with
  | QUIT => Ok (set_done true self)
  | KEYDOWN K_ESCAPE _ => Ok (cancel self)
  | KEYDOWN K_LSHIFT _ | KEYDOWN K_RSHIFT _ =>
      Ok (set_redraw_screen true (set_shift true self))
  | KEYDOWN K_BACKSPACE _ =>
      r ← update_text (set_input_text (Str.drop_last (input_text self)) self);
      Ok r.1
  | KEYDOWN K_RETURN _ => submit self
  | KEYDOWN K_TAB _ =>
      Ok (if shift self then select_prev self else select_next self)
  | KEYDOWN K_LEFT _ => Ok (select_prev self)
  | KEYDOWN K_RIGHT _ => Ok (select_next self)
  | KEYDOWN K_OTHER unicode =>
      r ← update_text (set_input_text (input_text self +:+ unicode) self);
      Ok r.1
  | KEYUP K_LSHIFT | KEYUP K_RSHIFT =>
      Ok (set_redraw_screen true (set_shift false self))
  | KEYUP _ => Ok self
  | OTHER_EVENT => Ok self
  end.

(** The events of one frame. *)
Fixpoint process_events (self : App) (evs : list event) : result App :=
  match evs with
  | [] => Ok self
  | QUIT :: _ => handle_event self QUIT
  | ev :: r => self' ← handle_event self ev; process_events self' r
  end.

(** [run] over the event batches of successive frames: it stops when
    [done] is set, and an exception leaves the loop. *)
Fixpoint run (self : App) (frames : list (list event)) : result App :=
  match frames with
  | [] => Ok self
  | evs :: r =>
      if done self then Ok self
      else self' ← process_events self evs;
           if done self' then Ok self' else run self' r
  end.

(** [main]: the exit status; an exception in the constructor or in
    [run] is caught, its traceback printed, and answered by [1]. *)
Definition main (dictionary : list (string * Data))
    (frames : list (list event)) : Z :=
  match init dictionary with
  | Raise _ => 1%Z
  | Ok app =>
      match run app frames with
      | Raise _ => 1%Z
      | Ok _ => 0%Z
      end
  end.

(** The engine seen as a function: the candidates that [update_text]
    leaves for the text [raw_input]. *)
Definition resolve (self : App) (raw_input : string)
  : result (list string * list string) :=
  r ← update_text (set_input_text raw_input self);
  Ok (matches r.1, matches_shift r.1).

(** ** The case adapter in the words of the specification, and the
    lookups of the code taken one strategy at a time

    [leading_uppercase], [all_lowercase] and [case_adapt] follow the
    words of the specification. [candidates_of] and [first_yielding]
    are read off the code: they use the code's own tables and loops on
    the text that the code looks up. *)

(** [leading_uppercase]: the first character of the raw input is an
    upper-case letter. *)
Definition leading_uppercase (raw : string) : bool :=
  match raw with
  | EmptyString => false
  | String c _ => Str.is_upper_char c
  end.

(** [all_lowercase]: the raw input has no upper-case letter. *)
Definition all_lowercase (raw : string) : bool :=
  negb (Str.existsb_char Str.is_upper_char raw).

(** The case adapter of the specification for a candidate [c]. *)
Definition case_adapt (raw c : string) : string :=
  if leading_uppercase raw then Str.upper c
  else if all_lowercase raw then Str.lower c
  else c.

(** The primary form that the exact strategies give: upper case after a
    leading upper-case letter, the stored string otherwise. *)
Definition exact_form (raw c : string) : string :=
  if leading_uppercase raw then Str.upper c else c.

(** A string made of white space only (the empty string included). *)
Fixpoint all_space (s : string) : bool :=
  match s with
  | EmptyString => true
  | String c r => Str.is_space c && all_space r
  end.

(** The four strategies in their order of priority. *)
Inductive strategy := ExactLiteral | ExactName | TagMatch | CharMatch.

Definition strategies : list strategy :=
  [ExactLiteral; ExactName; TagMatch; CharMatch].

(** The counters that the tag loop and the character loop build for
    the looked-up text [key], each from an empty counter. *)
Definition tag_counter (idx : Index) (key : string) : counter :=
  count_tags (tags idx) (Str.split key) [].

Definition char_counter (idx : Index) (key : string) : counter :=
  (count_chars (chars idx) (Str.split key) (∅, [])).2.

(** What one strategy of the code yields taken alone, before case
    adaptation, for the looked-up text [key]. *)
Definition candidates_of (idx : Index) (key : string) (s : strategy)
  : list string :=
  match s with
  | ExactLiteral => option_list (lowercase_snippets idx !! key)
  | ExactName => option_list (lowercase_names idx !! key)
  | TagMatch => take MAX_MATCHES (sorted_keys (tag_counter idx key))
  | CharMatch => take MAX_MATCHES (sorted_keys (char_counter idx key))
  end.

(** The first strategy of the list that yields a candidate. *)
Fixpoint first_yielding (idx : Index) (key : string) (l : list strategy)
  : option strategy :=
  match l with
  | [] => None
  | s :: r =>
      if truthy (candidates_of idx key s) then Some s
      else first_yielding idx key r
  end.

(** The primary form of a candidate of strategy [s]: as stored for an
    exact literal match unless the input starts in upper case, by the
    case adapter for the other strategies. *)
Definition primary_form (s : strategy) (raw c : string) : string :=
  match s with
  | ExactLiteral => exact_form raw c
  | _ => case_adapt raw c
  end.

(** A snippet [k] is filed under the key [w] of a tag or character
    table. *)
Definition filed_under (m : gmap string (gset string)) (k w : string)
  : Prop :=
  match m !! w with
  | Some s => k ∈ s
  | None => False
  end.

#[global] Instance filed_under_dec m k w : Decision (filed_under m k w).
Proof. unfold filed_under. destruct (m !! w); apply _. Defined.

(** The words of a dictionary (the Entry Store's canonical words). *)
Definition words_of (dictionary : list (string * Data)) : list string :=
  dictionary.*1.

(** ** Sample dictionaries *)

Definition entry (name : string) (tgs chs : list string) : Data :=
  {| d_name := Some name; d_tags := Some tgs; d_chars := Some chs |}.

(** [A: {name: alpha, tags: [x, y]}], [B: {name: beta, tags: [x]}] *)
Definition dict_ab : list (string * Data) :=
  [("A", entry "alpha" ["x"; "y"] []); ("B", entry "beta" ["x"] [])].

(** [A: {name: alpha, chars: [a]}] *)
Definition dict_a : list (string * Data) :=
  [("A", entry "alpha" [] ["a"])].

(** [Pi: {name: circle, tags: [math]}] *)
Definition dict_pi : list (string * Data) :=
  [("Pi", {| d_name := Some "circle"; d_tags := Some ["math"];
             d_chars := None |})].

(** [pi: {name: circle}] *)
Definition dict_pi_plain : list (string * Data) :=
  [("pi", {| d_name := Some "circle"; d_tags := None; d_chars := None |})].

(** A dictionary on which the text [pi] satisfies all four strategies. *)
Definition dict_overlap : list (string * Data) :=
  [("pi", entry "circle" [] []);
   ("rho", entry "pi" [] []);
   ("tau", entry "turn" ["pi"] []);
   ("phi", entry "gold" [] ["p"; "i"])].

(** The application right after [__init__]; [default_app] stands for a
    failed construction, which does not occur on the samples. *)
Definition default_app : App :=
  {| index := empty_index; tag_matches := []; char_matches := [];
     matches := []; matches_shift := []; shift := false;
     redraw_screen := true; has_leading_uppercase := false;
     is_all_lowercase := false; input_text := ""; done := false;
     selection := 0; clipboard := ""; stdout := [] |}.

Definition app_of (dictionary : list (string * Data)) : App :=
  match init dictionary with
  | Ok a => a
  | Raise _ => default_app
  end.

(** An application state with three candidates and the cursor at [sel]. *)
Definition three_candidates (sel : Z) : App :=
  set_selection sel
    (set_matches_shift ["A"; "B"; "C"]
       (set_matches ["a"; "b"; "c"] default_app)).

(** ** Auxiliary notions of the proofs *)

(** What the loop of [update_text] leaves in slot [i] of [matches]. *)
Definition loop_form (hlu ial : bool) (c : string) : string :=
  if hlu then Str.upper c else if ial then Str.lower c else c.

(** The state after the resets at the top of [update_text]. *)
Definition cleared (self : App) : App :=
  set_matches_shift []
    (set_matches []
       (set_selection 0
          (set_shift false
             (set_matches []
                (set_char_matches []
                   (set_tag_matches [] (set_redraw_screen true self))))))).

(** The state in which the strategies run. *)
Definition classified (self : App) : App :=
  set_is_all_lowercase (Str.islower (input_text self))
    (set_has_leading_uppercase (leading_uppercase (input_text self))
       (cleared self)).

(** The primary form that the code gives to a candidate of strategy
    [s]. *)
Definition code_form (s : strategy) (raw : string) : string -> string :=
  match s with
  | ExactLiteral | ExactName => exact_form raw
  | TagMatch | CharMatch =>
      loop_form (leading_uppercase raw) (Str.islower raw)
  end.

(** The invariant of the loop of [build_dictionary]: the values of
    [lowercase_snippets] are words of the dictionary filed under their
    lower-case form, and whatever the other tables mention is a key of
    [lowercase_snippets]. *)
Definition index_ok (dictionary : list (string * Data)) (idx : Index)
  : Prop :=
  (forall k w, lowercase_snippets idx !! k = Some w ->
               w ∈ words_of dictionary /\ Str.lower w = k) /\
  (forall key s k, tags idx !! key = Some s -> k ∈ s ->
                   is_Some (lowercase_snippets idx !! k)) /\
  (forall key s k, chars idx !! key = Some s -> k ∈ s ->
                   is_Some (lowercase_snippets idx !! k)) /\
  (forall n k, lowercase_names idx !! n = Some k ->
               is_Some (lowercase_snippets idx !! k)).

(** A character counts for [k] when it is not yet used and [k] is filed
    under it. *)
Definition counts (chs : gmap string (gset string)) (k : string)
    (used : gset string) (ch : string) : Prop :=
  (ch ∉ used) /\ filed_under chs k ch.

#[global] Instance counts_dec chs k used ch : Decision (counts chs k used ch).
Proof. unfold counts. apply _. Defined.

(** The characters of [cs] that count for [k]. *)
Definition counting (chs : gmap string (gset string)) (k : string)
    (used : gset string) (cs : list string) : gset string :=
  list_to_set (filter (counts chs k used) cs).

(** The characters of the words of the input, in order. *)
Definition input_chars (words : list string) : list string :=
  concat (Str.chars_of <$> words).

(** The number of distinct characters of the input under which [k] is
    filed. *)
Definition distinct_chars_for (chs : gmap string (gset string))
    (k : string) (words : list string) : nat :=
  size (list_to_set (filter (filed_under chs k) (input_chars words))
        : gset string).

(** The order of the ranking: by the stored count. *)
Definition value_le (x y : string * nat) : Prop := (x.2 <= y.2)%nat.

(** Simplifies the projections of a state built by the setters. *)
Ltac fields :=
  cbn [index tag_matches char_matches matches matches_shift shift
       redraw_screen has_leading_uppercase is_all_lowercase input_text done
       selection clipboard stdout set_tag_matches set_char_matches
       set_matches set_matches_shift set_shift set_redraw_screen
       set_has_leading_uppercase set_is_all_lowercase set_input_text
       set_done set_selection set_clipboard set_stdout fst snd] in *.

(** ** Notions for the further properties *)

(** [Pi: {name: circle}], [PI: {name: Circle}]: two words and two names
    that differ in case only. *)
Definition dict_twice : list (string * Data) :=
  [("Pi", entry "circle" [] []); ("PI", entry "Circle" [] [])].

(** The entry has a non-empty name, as line 151 to 154 of the source
    require. *)
Definition named (item : string * Data) : Prop :=
  match d_name item.2 with
  | Some name => name <> ""
  | None => False
  end.

#[global] Instance named_dec item : Decision (named item).
Proof. unfold named. destruct (d_name item.2); apply _. Defined.

(** The entry [item] lists [t] under [tags], respectively [chars]. *)
Definition declares_tag (t : string) (item : string * Data) : Prop :=
  t ∈ default [] (d_tags item.2).

Definition declares_char (t : string) (item : string * Data) : Prop :=
  t ∈ default [] (d_chars item.2).

(** The entry's name is [n] up to case. *)
Definition named_as (n : string) (item : string * Data) : Prop :=
  Str.lower <$> d_name item.2 = Some n.

#[global] Instance named_as_dec n item : Decision (named_as n item).
Proof. unfold named_as. apply _. Defined.

(** The cursor and the two candidate lists fit together: the lists have
    the same length and the cursor is [0] on an empty list and a valid
    index otherwise. *)
Definition consistent (self : App) : Prop :=
  length (matches self) = length (matches_shift self) /\
  (0 <= selection self < Z.max 1 (len (matches self)))%Z.

(** The two states differ at most in the fields that a resolution
    rewrites: the index, the typed text, the shift flag, the quit flag,
    the clipboard and the printed lines are the same. *)
Definition same_session (a b : App) : Prop :=
  index a = index b /\ input_text a = input_text b /\
  done a = done b /\ clipboard a = clipboard b /\ stdout a = stdout b.

(** The key events that type the texts [us], one event each. *)
Definition typing (us : list string) : list event :=
  KEYDOWN K_OTHER <$> us.

(** [pi: {name: circle, tags: [Math]}]: a tag with an upper-case
    letter. *)
Definition dict_upper : list (string * Data) :=
  [("pi", {| d_name := Some "circle"; d_tags := Some ["Math"];
             d_chars := None |})].

(** The index without the key [t] of the tag table, respectively of the
    character table. *)
Definition without_tag (t : string) (idx : Index) : Index :=
  {| tags := delete t (tags idx); chars := chars idx;
     lowercase_names := lowercase_names idx; names := names idx;
     lowercase_snippets := lowercase_snippets idx |}.

Definition without_char (t : string) (idx : Index) : Index :=
  {| tags := tags idx; chars := delete t (chars idx);
     lowercase_names := lowercase_names idx; names := names idx;
     lowercase_snippets := lowercase_snippets idx |}.

(** The form in which the tables store the dictionary word [w] for the
    candidates of strategy [s]: the word itself in [lowercase_snippets],
    its lower-case form in the three other tables. *)
Definition stored_form (s : strategy) (w : string) : string :=
  match s with
  | ExactLiteral => w
  | _ => Str.lower w
  end.

(** Some entry of the dictionary whose word lower-cases to [k] lists
    [w] among its tags. *)
Definition tagged_by (dictionary : list (string * Data)) (k w : string)
  : Prop :=
  Exists (fun item => Str.lower item.1 = k /\ declares_tag w item)
         dictionary.

#[global] Instance tagged_by_dec dictionary k w :
  Decision (tagged_by dictionary k w).
Proof. unfold tagged_by, declares_tag. apply _. Defined.

(** The exact strategies in the words of the specification: they look
    up the stripped input in lower case. *)
Definition spec_key (raw : string) : string := Str.lower (Str.strip raw).

Definition spec_exact_literal (idx : Index) (raw : string) : option string :=
  lowercase_snippets idx !! spec_key raw.

Definition spec_exact_name (idx : Index) (raw : string) : option string :=
  lowercase_names idx !! spec_key raw.

(** [Pi: {name: circle, tags: [x, y]}], [PI: {name: disc, tags: [x]}]:
    two words that differ in case only. *)
Definition dict_case : list (string * Data) :=
  [("Pi", entry "circle" ["x"; "y"] []); ("PI", entry "disc" ["x"] [])].

(** * Properties *)

(** ** Strings *)

Section StringFacts.

Lemma lower_char_idem c : Str.lower_char (Str.lower_char c) = Str.lower_char c.
Proof. destruct c as [[] [] [] [] [] [] [] []]; reflexivity. Qed.

Lemma lower_idem s : Str.lower (Str.lower s) = Str.lower s.
Proof.
  induction s as [|c s IH]; simpl; [done|].
  by rewrite lower_char_idem, IH.
Qed.

Lemma upper_lower_disjoint c :
  Str.is_upper_char c = true -> Str.is_lower_char c = false.
Proof. destruct c as [[] [] [] [] [] [] [] []]; simpl; done. Qed.

Lemma isupper_single c :
  Str.isupper (String c EmptyString) = Str.is_upper_char c.
Proof.
  unfold Str.isupper; simpl. rewrite !orb_false_r.
  destruct (Str.is_upper_char c) eqn:E; [|done].
  by rewrite (upper_lower_disjoint _ E).
Qed.

Lemma is_empty_true s : Str.is_empty s = true <-> s = "".
Proof. destruct s; simpl; split; congruence. Qed.

Lemma is_empty_false s : Str.is_empty s = false <-> s <> "".
Proof. destruct s; simpl; split; congruence. Qed.

Lemma lstrip_all_space s : all_space s = true -> Str.lstrip s = "".
Proof.
  induction s as [|c s IH]; simpl; [done|].
  intros [Hc Hs]%andb_prop. rewrite Hc. auto.
Qed.

Lemma strip_all_space s : all_space s = true -> Str.strip s = "".
Proof. intros H. unfold Str.strip. by rewrite lstrip_all_space. Qed.

Lemma rstrip_empty s : Str.rstrip s = "" -> all_space s = true.
Proof.
  induction s as [|c s IH]; simpl; [done|].
  destruct (Str.is_space c) eqn:Hc; simpl; [|done].
  destruct (Str.is_empty (Str.rstrip s)) eqn:He; [|done].
  intros _. apply IH. by apply is_empty_true.
Qed.

Lemma lstrip_all_space_inv s :
  all_space (Str.lstrip s) = true -> all_space s = true.
Proof.
  induction s as [|c s IH]; simpl; [done|].
  destruct (Str.is_space c) eqn:Hc; simpl; [auto|].
  by rewrite Hc.
Qed.

(** Blank after stripping is the same as white space only. *)
Lemma strip_empty_iff s : Str.strip s = "" <-> all_space s = true.
Proof.
  split; [|apply strip_all_space].
  intros H. by apply lstrip_all_space_inv, rstrip_empty.
Qed.

Lemma strip_nonempty s : Str.strip s <> "" -> s <> "".
Proof. intros H ->. by apply H. Qed.

(** Position [0] of a non-empty string can be read. *)
Lemma getitem_0 c r :
  Str.getitem (String c r) 0 = Ok (String c EmptyString).
Proof.
  unfold Str.getitem. simpl String.length.
  replace (0 <? 0)%Z with false by done.
  replace ((0 <=? 0) && (0 <? Z.of_nat (S (String.length r))))%Z
    with true; [done|].
  symmetry. apply andb_true_intro. split; [done|]. apply Z.ltb_lt. lia.
Qed.

End StringFacts.

(** ** Lists indexed in place *)

Section ListFacts.
Context {A : Type}.
Implicit Types l : list A.

Lemma index_in_range (n m : nat) :
  (n < m)%nat ->
  ((if Z.of_nat n <? 0 then Z.of_nat m + Z.of_nat n else Z.of_nat n)%Z
     = Z.of_nat n) /\
  ((0 <=? Z.of_nat n) && (Z.of_nat n <? Z.of_nat m))%Z = true.
Proof.
  intros H. split.
  - destruct (Z.ltb_spec (Z.of_nat n) 0); [lia|done].
  - apply andb_true_intro. split; [apply Z.leb_le | apply Z.ltb_lt]; lia.
Qed.

Lemma list_getitem_middle l1 x l2 :
  list_getitem (l1 ++ x :: l2) (Z.of_nat (length l1)) = Ok x.
Proof.
  unfold list_getitem.
  destruct (index_in_range (length l1) (length (l1 ++ x :: l2))) as [-> ->].
  { rewrite length_app. simpl. lia. }
  rewrite Nat2Z.id. by rewrite list_lookup_middle.
Qed.

Lemma list_setitem_middle l1 x y l2 :
  list_setitem (l1 ++ x :: l2) (Z.of_nat (length l1)) y
  = Ok (l1 ++ y :: l2).
Proof.
  unfold list_setitem.
  destruct (index_in_range (length l1) (length (l1 ++ x :: l2))) as [-> ->].
  { rewrite length_app. simpl. lia. }
  rewrite Nat2Z.id.
  replace (length l1) with (length l1 + 0)%nat at 1 by lia.
  by rewrite insert_app_r.
Qed.

(** Reading any position of the empty list raises [IndexError]. *)
Lemma list_getitem_nil (i : Z) : list_getitem (@nil A) i = Raise IndexError.
Proof.
  unfold list_getitem. simpl length.
  destruct (_ && _)%bool eqn:F; [|done].
  apply andb_prop in F as [F1%Z.leb_le F2%Z.ltb_lt].
  destruct (i <? 0)%Z eqn:E; [apply Z.ltb_lt in E|]; lia.
Qed.

Lemma for_each_cons {S} (body : A -> S -> result S) x l s :
  for_each body (x :: l) s = s' ← body x s; for_each body l s'.
Proof. done. Qed.

(** A property kept by every successful iteration holds at the end. *)
Lemma for_each_invariant {S} (P : S -> Prop)
    (body : A -> S -> result S) l s s' :
  P s ->
  (forall x t t', x ∈ l -> P t -> body x t = Ok t' -> P t') ->
  for_each body l s = Ok s' -> P s'.
Proof.
  revert s. induction l as [|x l IH]; intros s Hs Hstep; simpl.
  - by intros [= <-].
  - destruct (body x s) as [t|] eqn:E; simpl; [|done].
    apply IH.
    + eapply Hstep; [apply list_elem_of_here|done..].
    + intros y t1 t2 Hy. apply Hstep. by apply list_elem_of_further.
Qed.

End ListFacts.

(** ** The case loop *)

Lemma adapt_at_middle hlu ial done_ms done_sh c rest p pl :
  length done_ms = length done_sh ->
  adapt_at hlu ial (length done_ms) (done_ms ++ c :: rest, done_sh ++ p :: pl)
  = Ok (done_ms ++ loop_form hlu ial c :: rest,
        done_sh ++ Str.upper c :: pl).
Proof.
  intros Hlen. unfold adapt_at, loop_form.
  rewrite list_getitem_middle. simpl.
  rewrite Hlen, list_setitem_middle. simpl.
  destruct hlu; [|destruct ial].
  - rewrite list_getitem_middle. simpl.
    by rewrite <- Hlen, list_setitem_middle.
  - by rewrite <- Hlen, list_setitem_middle.
  - done.
Qed.

Lemma adapt_loop hlu ial rest : forall done_ms done_sh pl,
  length done_ms = length done_sh ->
  length rest = length pl ->
  for_each (adapt_at hlu ial) (seq (length done_ms) (length rest))
           (done_ms ++ rest, done_sh ++ pl)
  = Ok (done_ms ++ (loop_form hlu ial <$> rest),
        done_sh ++ (Str.upper <$> rest)).
Proof.
  induction rest as [|c rest IH]; intros done_ms done_sh pl Hd Hr.
  - destruct pl; [|done]. done.
  - destruct pl as [|p pl]; [done|]. simpl in Hr.
    change (seq (length done_ms) (length (c :: rest)))
      with (length done_ms :: seq (S (length done_ms)) (length rest)).
    rewrite for_each_cons, adapt_at_middle by done. simpl.
    specialize (IH (done_ms ++ [loop_form hlu ial c])
                   (done_sh ++ [Str.upper c]) pl).
    rewrite !length_app in IH. simpl in IH.
    rewrite <- !app_assoc in IH. simpl in IH.
    replace (S (length done_ms)) with (length done_ms + 1)%nat by lia.
    by rewrite IH by lia.
Qed.

(** The loop never raises: it maps the case rule over the ranked
    snippets and fills every slot of [matches_shift]. *)
Lemma ranked_matches_Ok hlu ial m :
  ranked_matches hlu ial m
  = Ok (loop_form hlu ial <$> take MAX_MATCHES (sorted_keys m),
        Str.upper <$> take MAX_MATCHES (sorted_keys m)).
Proof.
  unfold ranked_matches.
  apply (adapt_loop hlu ial _ [] []); [done|].
  by rewrite length_replicate.
Qed.

(** ** [update_text], case by case *)

Lemma update_text_blank self :
  Str.strip (input_text self) = "" ->
  update_text self = Ok (cleared self, None).
Proof.
  intros H. unfold update_text.
  replace (input_text (set_matches_shift _ _)) with (input_text self)
    by by destruct self.
  by rewrite H.
Qed.

Lemma update_text_nonblank self :
  Str.strip (input_text self) <> "" ->
  update_text self
  = update_text_exact (classified self) (Str.lower (input_text self)).
Proof.
  intros H. unfold update_text.
  replace (input_text (set_matches_shift _ _)) with (input_text self)
    by by destruct self.
  apply is_empty_false in H as He. rewrite He.
  destruct (input_text self) as [|c r] eqn:Hraw; [done|].
  rewrite getitem_0. simpl mbind.
  replace (input_text (set_has_leading_uppercase _ _)) with (String c r)
    by by destruct self; simpl in *.
  rewrite isupper_single. unfold classified, cleared. rewrite Hraw.
  replace (input_text (set_is_all_lowercase _ _)) with (String c r)
    by by destruct self; simpl in *.
  done.
Qed.

(** The three stages never raise. *)
Lemma update_text_chars_Ok self words :
  exists r, update_text_chars self words = Ok r.
Proof.
  unfold update_text_chars.
  destruct (count_chars _ _ _) as [u cm].
  destruct (char_matches (set_char_matches cm self)); [eauto|].
  rewrite ranked_matches_Ok. simpl. eauto.
Qed.

Lemma update_text_tags_Ok self key :
  exists r, update_text_tags self key = Ok r.
Proof.
  unfold update_text_tags.
  destruct (tag_matches (set_tag_matches _ self)).
  - apply update_text_chars_Ok.
  - rewrite ranked_matches_Ok. simpl. eauto.
Qed.

Lemma update_text_exact_Ok self key :
  exists r, update_text_exact self key = Ok r.
Proof.
  unfold update_text_exact.
  destruct (lowercase_snippets _ !! key); [eauto|].
  destruct (lowercase_names _ !! key); [eauto|].
  apply update_text_tags_Ok.
Qed.

Lemma update_text_Ok self : exists r, update_text self = Ok r.
Proof.
  destruct (decide (Str.strip (input_text self) = "")) as [H|H].
  - rewrite update_text_blank by done. eauto.
  - rewrite update_text_nonblank by done. apply update_text_exact_Ok.
Qed.

(** Fields that the strategies leave alone. *)
Lemma update_text_chars_selection self words r :
  update_text_chars self words = Ok r -> selection r.1 = selection self.
Proof.
  unfold update_text_chars.
  destruct (count_chars _ _ _) as [u cm].
  destruct (char_matches (set_char_matches cm self)) eqn:E.
  - intros [= <-]. by destruct self.
  - rewrite ranked_matches_Ok. simpl. intros [= <-]. by destruct self.
Qed.

Lemma update_text_tags_selection self key r :
  update_text_tags self key = Ok r -> selection r.1 = selection self.
Proof.
  unfold update_text_tags.
  destruct (tag_matches (set_tag_matches _ self)) eqn:E.
  - intros H%update_text_chars_selection. rewrite H. by destruct self.
  - rewrite ranked_matches_Ok. simpl. intros [= <-]. by destruct self.
Qed.

Lemma update_text_exact_selection self key r :
  update_text_exact self key = Ok r -> selection r.1 = selection self.
Proof.
  unfold update_text_exact.
  destruct (lowercase_snippets _ !! key);
    [intros [= <-]; by destruct self|].
  destruct (lowercase_names _ !! key);
    [intros [= <-]; by destruct self|].
  apply update_text_tags_selection.
Qed.

Lemma update_text_selection self r :
  update_text self = Ok r -> selection r.1 = 0%Z.
Proof.
  destruct (decide (Str.strip (input_text self) = "")) as [H|H].
  - rewrite update_text_blank by done. intros [= <-]. by destruct self.
  - rewrite update_text_nonblank by done.
    intros ->%update_text_exact_selection. by destruct self.
Qed.

(** ** The selection cursor *)

Lemma selection_select_next self :
  matches self <> [] ->
  selection (select_next self)
  = ((selection self + 1) `mod` len (matches self))%Z.
Proof.
  intros H. unfold select_next.
  destruct (matches self) eqn:E; [done|]. simpl truthy. cbv iota.
  by destruct self.
Qed.

Lemma selection_select_prev self :
  matches self <> [] ->
  selection (select_prev self)
  = ((selection self - 1) `mod` len (matches self))%Z.
Proof.
  intros H. unfold select_prev.
  destruct (matches self) eqn:E; [done|]. simpl truthy. cbv iota.
  by destruct self.
Qed.

(** C8: cycling the cursor is modular with wrap-around in both
    directions ([RIGHT] and [TAB] forward, [LEFT] and shifted [TAB]
    backward), does nothing when there is no candidate, and every run of
    [update_text] succeeds and leaves the cursor at [0]. *)
Theorem cursor_cycles_and_resets (self : App) (u : string) :
  let n := len (matches self) in
  handle_event self (KEYDOWN K_RIGHT u) = Ok (select_next self) /\
  handle_event self (KEYDOWN K_LEFT u) = Ok (select_prev self) /\
  handle_event self (KEYDOWN K_TAB u)
    = Ok (if shift self then select_prev self else select_next self) /\
  (matches self = [] -> select_next self = self /\ select_prev self = self) /\
  (matches self <> [] ->
     selection (select_next self) = ((selection self + 1) `mod` n)%Z /\
     selection (select_prev self) = ((selection self - 1 + n) `mod` n)%Z /\
     (0 <= selection (select_next self) < n)%Z /\
     (0 <= selection (select_prev self) < n)%Z) /\
  (exists r, update_text self = Ok r /\ selection r.1 = 0%Z).
Proof.
  intros n.
  assert (Hn : matches self <> [] -> (0 < n)%Z).
  { unfold n, len. destruct (matches self); [done|]. simpl length. lia. }
  split; [done|]. split; [done|]. split; [done|]. split; [|split].
  - intros H. unfold select_next, select_prev. by rewrite H.
  - intros H. specialize (Hn H).
    rewrite selection_select_next, selection_select_prev by done. fold n.
    split; [done|]. split.
    + replace (selection self - 1 + n)%Z
        with (selection self - 1 + 1 * n)%Z by lia.
      by rewrite Z_mod_plus_full.
    + split; by apply Z.mod_pos_bound.
  - destruct (update_text_Ok self) as [r Hr]. exists r. split; [done|].
    by eapply update_text_selection.
Qed.

(** With three candidates the cursor at [2] moves forward to [0] and
    the cursor at [0] moves backward to [2]. *)
Lemma cursor_cycles_and_resets_witness :
  selection (select_next (three_candidates 2)) = 0%Z /\
  selection (select_prev (three_candidates 0)) = 2%Z.
Proof.
  split.
  - pose proof (cursor_cycles_and_resets (three_candidates 2) "") as H.
    simpl in H. destruct H as (_ & _ & _ & _ & H & _).
    destruct H as (H & _); [done|]. exact H.
  - pose proof (cursor_cycles_and_resets (three_candidates 0) "") as H.
    simpl in H. destruct H as (_ & _ & _ & _ & H & _).
    destruct H as (_ & H & _); [done|]. exact H.
Defined.

(** ** Blank input and totality *)

(** C9: the resolver is total, and for the empty string and for any
    input made of white space only it returns empty [matches] and empty
    [matches_shift] as ordinary data. *)
Theorem resolve_total_and_blank_is_empty (self : App) (raw : string) :
  (exists r, resolve self raw = Ok r) /\
  (all_space raw = true -> resolve self raw = Ok ([], [])).
Proof.
  split.
  - unfold resolve.
    destruct (update_text_Ok (set_input_text raw self)) as [r ->].
    simpl. eauto.
  - intros H%strip_all_space. unfold resolve.
    rewrite update_text_blank by by destruct self.
    by destruct self.
Qed.

Lemma resolve_total_and_blank_is_empty_witness :
  resolve (app_of dict_ab) "" = Ok ([], []) /\
  resolve (app_of dict_ab) "   " = Ok ([], []).
Proof.
  split.
  - apply (resolve_total_and_blank_is_empty (app_of dict_ab) ""). reflexivity.
  - apply (resolve_total_and_blank_is_empty (app_of dict_ab) "   ").
    reflexivity.
Defined.

(** C10: [update_text] reads position [0] of the raw input only past the
    guard on the stripped text: an unguarded read of the empty string
    would raise [IndexError], the guard returns first on blank input,
    past the guard the raw input is non-empty and the read succeeds, and
    so [update_text] raises on no input at all. *)
Theorem first_character_read_is_guarded (self : App) :
  Str.getitem "" 0 = Raise IndexError /\
  (Str.strip (input_text self) = "" ->
     update_text self = Ok (cleared self, None)) /\
  (Str.strip (input_text self) <> "" ->
     exists c r, input_text self = String c r /\
                 Str.getitem (input_text self) 0 = Ok (String c "")) /\
  ~ raises (update_text self).
Proof.
  split; [done|]. split; [apply update_text_blank|]. split.
  - intros H%strip_nonempty. destruct (input_text self) as [|c r]; [done|].
    exists c, r. split; [done|]. apply getitem_0.
  - destruct (update_text_Ok self) as [r ->]. intros [].
Qed.

Lemma first_character_read_is_guarded_witness :
  (exists c r, input_text (set_input_text " a" default_app) = String c r /\
               Str.getitem (input_text (set_input_text " a" default_app)) 0
               = Ok (String c "")) /\
  update_text (set_input_text "  " default_app)
  = Ok (cleared (set_input_text "  " default_app), None).
Proof.
  split.
  - apply (first_character_read_is_guarded (set_input_text " a" default_app)).
    vm_compute. discriminate.
  - apply (first_character_read_is_guarded
             (set_input_text "  " default_app)).
    reflexivity.
Defined.

(** ** Submitting *)

(** Without candidates [submit] raises, whatever the cursor and the
    shift key. *)
Lemma submit_empty self :
  matches self = [] -> matches_shift self = [] ->
  submit self = Raise IndexError.
Proof.
  intros H1 H2. unfold submit. rewrite H1, H2, list_getitem_nil.
  by destruct (shift self).
Qed.

(** After [update_text] found nothing there is nothing left over from
    an earlier resolution. *)
Lemma blank_update_clears self r :
  Str.strip (input_text self) = "" ->
  update_text self = Ok r -> matches r.1 = [] /\ matches_shift r.1 = [].
Proof.
  intros H. rewrite update_text_blank by done. intros [= <-].
  by destruct self.
Qed.

(** C1: with an empty candidate list [submit] neither returns a no-result
    value nor is it guarded like the cursor keys: [RETURN] indexes the
    empty [matches] and the [IndexError] ends [run], so that [main]
    exits with status [1]; with a candidate the same key ends the
    session normally. *)
Theorem submit_without_candidates_raises :
  matches (app_of dict_ab) = [] /\
  submit (app_of dict_ab) = Raise IndexError /\
  submit (set_shift true (app_of dict_ab)) = Raise IndexError /\
  handle_event (app_of dict_ab) (KEYDOWN K_RETURN "") = Raise IndexError /\
  main dict_ab [[KEYDOWN K_RETURN ""]] = 1%Z /\
  main dict_ab [[KEYDOWN K_OTHER "q"]; [KEYDOWN K_RETURN ""]] = 1%Z /\
  main dict_ab [[KEYDOWN K_OTHER "x"]; [KEYDOWN K_RETURN ""]] = 0%Z.
Proof. repeat split; vm_compute; reflexivity. Qed.

(** ** The text that the exact strategies look up *)

(** C2: the exact strategies look up the lower-cased raw text, not the
    lower-cased stripped text: [pi] and [circle] are found, but with a
    blank before or after them the lookups miss although the stripped
    text is a key of the table. *)
Theorem exact_lookup_keeps_surrounding_space :
  lowercase_snippets (index (app_of dict_pi_plain))
    !! Str.lower (Str.strip "pi ") = Some "pi" /\
  lowercase_names (index (app_of dict_pi_plain))
    !! Str.lower (Str.strip " Circle") = Some "pi" /\
  resolve (app_of dict_pi_plain) "pi" = Ok (["pi"], ["PI"]) /\
  resolve (app_of dict_pi_plain) "circle" = Ok (["pi"], ["PI"]) /\
  resolve (app_of dict_pi_plain) "pi " = Ok ([], []) /\
  resolve (app_of dict_pi_plain) " circle" = Ok ([], []).
Proof. repeat split; vm_compute; reflexivity. Qed.

(** ** The built index *)

Section BuildFacts.

(** What [add_to] can put into a set: the new word or an old member. *)
Lemma add_to_lookup m key w key' s k :
  add_to m key w !! key' = Some s -> k ∈ s ->
  k = w \/ exists s0, m !! key' = Some s0 /\ k ∈ s0.
Proof.
  unfold add_to. destruct (m !! key) as [s1|] eqn:E.
  - destruct (decide (key = key')) as [<-|Hne].
    + rewrite lookup_insert_eq. intros [= <-] [Hk|Hk]%elem_of_union.
      * right. eauto.
      * left. by apply elem_of_singleton in Hk.
    + rewrite lookup_insert_ne by done. eauto.
  - destruct (decide (key = key')) as [<-|Hne].
    + rewrite lookup_insert_eq. intros [= <-] Hk%elem_of_singleton. by left.
    + rewrite lookup_insert_ne by done. eauto.
Qed.

Lemma foldl_add_to_lookup w keys : forall m key' s k,
  foldl (fun m key => add_to m key w) m keys !! key' = Some s -> k ∈ s ->
  k = w \/ exists s0, m !! key' = Some s0 /\ k ∈ s0.
Proof.
  induction keys as [|key keys IH]; intros m key' s k; simpl; [eauto|].
  intros Hs Hk. destruct (IH _ _ _ _ Hs Hk) as [?|(s0 & Hs0 & Hk0)]; [eauto|].
  eapply add_to_lookup; eauto.
Qed.

Variable dictionary : list (string * Data).

Lemma empty_index_ok : index_ok dictionary empty_index.
Proof. unfold index_ok. split_and!; simpl; intros; simplify_map_eq. Qed.

Lemma build_entry_ok item idx idx' :
  item ∈ dictionary -> index_ok dictionary idx ->
  build_entry item idx = Ok idx' -> index_ok dictionary idx'.
Proof.
  destruct item as [word data]. intros Hin (Hs & Ht & Hc & Hn).
  unfold build_entry.
  destruct (d_name data) as [name|]; [|done].
  destruct (Str.is_empty name); [done|].
  destruct (Str.is_empty (Str.lower name)); [done|].
  intros [= <-]. unfold index_ok. simpl.
  assert (Hkeep : forall k, is_Some (lowercase_snippets idx !! k) ->
            is_Some (<[Str.lower word := word]> (lowercase_snippets idx)
                       !! k)).
  { intros k Hk. destruct (decide (Str.lower word = k)) as [<-|Hne].
    - rewrite lookup_insert_eq. eauto.
    - by rewrite lookup_insert_ne. }
  assert (Hnew : is_Some (<[Str.lower word := word]>
                            (lowercase_snippets idx) !! Str.lower word)).
  { rewrite lookup_insert_eq. eauto. }
  split; [|split; [|split]].
  - intros k w. destruct (decide (Str.lower word = k)) as [<-|Hne].
    + rewrite lookup_insert_eq. intros [= <-]. split; [|done].
      apply list_elem_of_fmap. by exists (word, data).
    + rewrite lookup_insert_ne by done. apply Hs.
  - intros key s k Hk Hks.
    destruct (foldl_add_to_lookup _ _ _ _ _ _ Hk Hks)
      as [->|(s0 & Hs0 & Hk0)]; eauto.
  - intros key s k Hk Hks.
    destruct (foldl_add_to_lookup _ _ _ _ _ _ Hk Hks)
      as [->|(s0 & Hs0 & Hk0)]; eauto.
  - intros n k. destruct (decide (Str.lower name = n)) as [<-|Hne].
    + rewrite lookup_insert_eq. by intros [= <-].
    + rewrite lookup_insert_ne by done. eauto.
Qed.

Lemma build_dictionary_ok idx :
  build_dictionary dictionary = Ok idx -> index_ok dictionary idx.
Proof.
  unfold build_dictionary.
  apply for_each_invariant; [apply empty_index_ok|].
  intros item t t' Hin. by apply build_entry_ok.
Qed.

(** What the tag and character tables hold is in lower case. *)
Lemma built_tag_lowercase idx key s k :
  build_dictionary dictionary = Ok idx ->
  tags idx !! key = Some s -> k ∈ s -> Str.lower k = k.
Proof.
  intros (Hs & Ht & _)%build_dictionary_ok Hk Hks.
  destruct (Ht _ _ _ Hk Hks) as [w Hw].
  destruct (Hs _ _ Hw) as [_ <-]. apply lower_idem.
Qed.

Lemma built_char_lowercase idx key s k :
  build_dictionary dictionary = Ok idx ->
  chars idx !! key = Some s -> k ∈ s -> Str.lower k = k.
Proof.
  intros (Hs & _ & Hc & _)%build_dictionary_ok Hk Hks.
  destruct (Hc _ _ _ Hk Hks) as [w Hw].
  destruct (Hs _ _ Hw) as [_ <-]. apply lower_idem.
Qed.

Lemma built_name_lowercase idx n k :
  build_dictionary dictionary = Ok idx ->
  lowercase_names idx !! n = Some k -> Str.lower k = k.
Proof.
  intros (Hs & _ & _ & Hn)%build_dictionary_ok Hk.
  destruct (Hn _ _ Hk) as [w Hw].
  destruct (Hs _ _ Hw) as [_ <-]. apply lower_idem.
Qed.

End BuildFacts.

(** C4, as the code has it: what the sets of the tag and character
    tables of a built index hold is the lower-case form of a word of the
    dictionary, and it is a key of [lowercase_snippets] that leads back
    to such a word. *)
Theorem index_refers_to_lowercased_words
    (dictionary : list (string * Data)) (idx : Index)
    (key k : string) (s : gset string) :
  build_dictionary dictionary = Ok idx ->
  tags idx !! key = Some s \/ chars idx !! key = Some s ->
  k ∈ s ->
  exists w, w ∈ words_of dictionary /\ Str.lower w = k /\
            lowercase_snippets idx !! k = Some w.
Proof.
  intros (Hs & Ht & Hc & _)%build_dictionary_ok Hk Hks.
  assert (is_Some (lowercase_snippets idx !! k)) as [w Hw].
  { destruct Hk as [Hk|Hk]; eauto. }
  exists w. destruct (Hs _ _ Hw). done.
Qed.

Lemma index_refers_to_lowercased_words_witness :
  exists w, w ∈ words_of dict_pi /\ Str.lower w = "pi" /\
            lowercase_snippets (index (app_of dict_pi)) !! "pi" = Some w.
Proof.
  apply (index_refers_to_lowercased_words dict_pi (index (app_of dict_pi))
           "math" "pi" {["pi"]}).
  - reflexivity.
  - left. vm_compute. reflexivity.
  - apply elem_of_singleton. reflexivity.
Defined.

(** The tag table of the dictionary with the one word [Pi] holds [pi],
    which is no word of the dictionary. *)
Lemma index_holds_word_not_in_dictionary :
  ~ (forall (dictionary : list (string * Data)) (idx : Index)
            (key k : string) (s : gset string),
       build_dictionary dictionary = Ok idx ->
       tags idx !! key = Some s \/ chars idx !! key = Some s ->
       k ∈ s -> k ∈ words_of dictionary).
Proof.
  intros H.
  specialize (H dict_pi (index (app_of dict_pi)) "math" "pi" {["pi"]}).
  assert (Hin : "pi" ∈ words_of dict_pi).
  { apply H.
    - reflexivity.
    - left. vm_compute. reflexivity.
    - apply elem_of_singleton. reflexivity. }
  vm_compute in Hin. apply list_elem_of_In in Hin. simpl in Hin.
  destruct Hin as [Hin|[]]. discriminate Hin.
Qed.

(** ** Counters *)

Section CounterFacts.
Implicit Types m : counter.

Lemma count_of_incr k k' m :
  count_of k (incr k' m)
  = if decide (k = k') then S (count_of k m) else count_of k m.
Proof.
  unfold count_of. induction m as [|[k1 n] m IH]; simpl.
  - destruct (decide (k = k')); by simpl.
  - destruct (decide (k' = k1)) as [->|Hne]; simpl.
    + destruct (decide (k = k1)); by simpl.
    + destruct (decide (k = k1)) as [->|Hne1]; simpl.
      * by rewrite decide_False by done.
      * apply IH.
Qed.

Lemma incr_keys k m :
  (incr k m).*1 = if decide (k ∈ m.*1) then m.*1 else m.*1 ++ [k].
Proof.
  induction m as [|[k1 n] m IH].
  - by rewrite decide_False by by intros ?%elem_of_nil.
  - simpl incr. destruct (decide (k = k1)) as [->|Hne].
    + rewrite decide_True; [done|]. apply list_elem_of_here.
    + rewrite !fmap_cons, IH. simpl.
      destruct (decide (k ∈ m.*1)) as [Hin|Hin].
      * rewrite decide_True; [done|]. by apply list_elem_of_further.
      * rewrite decide_False; [done|].
        intros [?|?]%elem_of_cons; done.
Qed.

Lemma incr_NoDup k m : NoDup m.*1 -> NoDup (incr k m).*1.
Proof.
  intros H. rewrite incr_keys. destruct (decide (k ∈ m.*1)); [done|].
  apply NoDup_app. split; [done|]. split.
  - intros x Hx ->%list_elem_of_singleton. done.
  - apply NoDup_singleton.
Qed.

Lemma incr_elem_of k k' m : k ∈ (incr k' m).*1 <-> k = k' \/ k ∈ m.*1.
Proof.
  rewrite incr_keys. destruct (decide (k' ∈ m.*1)) as [Hin|Hin].
  - split; [by right|]. by intros [->|?].
  - rewrite elem_of_app, list_elem_of_singleton. tauto.
Qed.

Lemma count_snippets_NoDup l : forall m,
  NoDup m.*1 -> NoDup (count_snippets l m).*1.
Proof.
  unfold count_snippets.
  induction l as [|x l IH]; intros m H; simpl; [done|].
  by apply IH, incr_NoDup.
Qed.

Lemma count_snippets_elem_of k l : forall m,
  k ∈ (count_snippets l m).*1 <-> k ∈ l \/ k ∈ m.*1.
Proof.
  unfold count_snippets.
  induction l as [|x l IH]; intros m; simpl.
  - rewrite elem_of_nil. tauto.
  - rewrite IH, incr_elem_of, elem_of_cons. tauto.
Qed.

(** Counting a duplicate-free list of snippets adds one for a member. *)
Lemma count_of_count_snippets k l : forall m,
  NoDup l ->
  count_of k (count_snippets l m)
  = (count_of k m + if decide (k ∈ l) then 1 else 0)%nat.
Proof.
  unfold count_snippets.
  induction l as [|x l IH]; intros m Hnd.
  - rewrite decide_False by by intros ?%elem_of_nil. simpl. lia.
  - apply NoDup_cons in Hnd as [Hx Hnd]. simpl foldl.
    rewrite IH by done. rewrite count_of_incr.
    destruct (decide (k = x)) as [->|Hne].
    + rewrite (decide_False (P := x ∈ l)) by done.
      rewrite decide_True; [lia|]. apply list_elem_of_here.
    + destruct (decide (k ∈ l)) as [Hin|Hin].
      * rewrite decide_True; [lia|]. by apply list_elem_of_further.
      * rewrite decide_False; [lia|].
        intros [?|?]%elem_of_cons; done.
Qed.

(** The value stored for a key of a counter with distinct keys. *)
Lemma count_of_elem_of k n m :
  NoDup m.*1 -> (k, n) ∈ m -> count_of k m = n.
Proof.
  unfold count_of. induction m as [|[k1 n1] m IH]; simpl.
  - by intros _ ?%elem_of_nil.
  - intros [Hk1 Hnd]%NoDup_cons [Heq|Hin]%elem_of_cons.
    + injection Heq as -> ->. by rewrite decide_True.
    + rewrite decide_False; [by apply IH|].
      intros ->. apply Hk1. apply list_elem_of_fmap. by exists (k1, n).
Qed.

End CounterFacts.

(** ** The tag loop *)

Lemma count_tags_count k tgs words : forall m,
  count_of k (count_tags tgs words m)
  = (count_of k m + length (filter (filed_under tgs k) words))%nat.
Proof.
  unfold count_tags.
  induction words as [|w words IH]; intros m; simpl; [lia|].
  rewrite IH, filter_cons.
  destruct (decide (filed_under tgs k w)) as [Hf|Hf]; unfold filed_under in Hf;
    destruct (tgs !! w) as [s|] eqn:E; try done.
  - rewrite count_of_count_snippets by apply NoDup_elements.
    rewrite decide_True by by apply elem_of_elements. simpl. lia.
  - rewrite count_of_count_snippets by apply NoDup_elements.
    rewrite decide_False by by rewrite elem_of_elements. lia.
Qed.

Lemma count_tags_NoDup tgs words : forall m,
  NoDup m.*1 -> NoDup (count_tags tgs words m).*1.
Proof.
  unfold count_tags.
  induction words as [|w words IH]; intros m H; simpl; [done|].
  apply IH. destruct (tgs !! w); [|done]. by apply count_snippets_NoDup.
Qed.

(** A counted snippet comes from one of the sets of the table. *)
Lemma count_tags_elem_of k tgs words : forall m,
  k ∈ (count_tags tgs words m).*1 ->
  k ∈ m.*1 \/ exists w s, w ∈ words /\ tgs !! w = Some s /\ k ∈ s.
Proof.
  unfold count_tags.
  induction words as [|w words IH]; intros m; simpl; [eauto|].
  intros [Hk|(w' & s & Hw' & Hs & Hks)]%IH.
  - destruct (tgs !! w) as [s|] eqn:E; [|eauto].
    apply count_snippets_elem_of in Hk as [Hk|Hk]; [|eauto].
    right. exists w, s. split; [apply list_elem_of_here|].
    split; [done|]. by apply elem_of_elements.
  - right. exists w', s. split; [by apply list_elem_of_further|done].
Qed.

(** ** The character loop *)

Lemma foldl_invariant {A B} (P : A -> Prop) (f : A -> B -> A) l : forall a,
  P a -> (forall a x, x ∈ l -> P a -> P (f a x)) -> P (foldl f a l).
Proof.
  induction l as [|x l IH]; intros a Ha Hstep; simpl; [done|].
  apply IH.
  - apply Hstep; [apply list_elem_of_here|done].
  - intros a' y Hy. apply Hstep. by apply list_elem_of_further.
Qed.

Lemma foldl_concat {A B C} (f : A -> B -> A) (h : C -> list B) l : forall a,
  foldl (fun a x => foldl f a (h x)) a l = foldl f a (concat (h <$> l)).
Proof.
  induction l as [|x l IH]; intros a; simpl; [done|].
  by rewrite foldl_app, IH.
Qed.

Section CharLoop.
Variable chs : gmap string (gset string).

(** The loop over the snippets of one character: the counter is
    counted up as in the tag loop, and the character is marked as
    used as soon as the loop body runs once. *)
Lemma mark_and_count ch l : forall st : gset string * counter,
  let st' := foldl (fun st snippet => ({[ch]} ∪ st.1, incr snippet st.2))
                   st l in
  st'.2 = count_snippets l st.2 /\
  (forall x, x ∈ st'.1 <-> x ∈ st.1 \/ (x = ch /\ l <> [])).
Proof.
  induction l as [|s l IH]; intros st; simpl.
  - split; [done|]. intros x. split; [by left|].
    intros [?|[_ ?]]; done.
  - destruct (IH ({[ch]} ∪ st.1, incr s st.2)) as [H1 H2].
    simpl in H1, H2. split; [done|].
    intros x. rewrite H2, elem_of_union, elem_of_singleton. split.
    + intros [[->|?]|[-> _]]; [by right|by left|by right].
    + intros [?|[-> _]]; [left; by right|left; by left].
Qed.

Variable k : string.

Lemma elem_of_counting used cs x :
  x ∈ counting chs k used cs
  <-> x ∈ cs /\ (x ∉ used) /\ filed_under chs k x.
Proof.
  unfold counting. rewrite elem_of_list_to_set, list_elem_of_filter.
  unfold counts. tauto.
Qed.

Lemma count_char_count cs : forall (used : gset string) (cm : counter),
  count_of k (foldl (count_char chs) (used, cm) cs).2
  = (count_of k cm + size (counting chs k used cs))%nat.
Proof.
  induction cs as [|ch cs IH]; intros used cm.
  { replace (counting chs k used []) with (∅ : gset string) by done.
    rewrite size_empty. simpl. lia. }
  simpl foldl.
  destruct (count_char chs (used, cm) ch) as [used1 cm1] eqn:Hstep.
  rewrite IH.
  unfold count_char in Hstep. simpl in Hstep.
  destruct (decide (ch ∈ used)) as [Hu|Hu].
  { injection Hstep as <- <-. f_equal. f_equal.
    apply set_eq. intros x. rewrite !elem_of_counting, elem_of_cons.
    naive_solver. }
  destruct (chs !! ch) as [s|] eqn:Hs.
  2:{ injection Hstep as <- <-. f_equal. f_equal.
      apply set_eq. intros x. rewrite !elem_of_counting, elem_of_cons.
      unfold filed_under. split; [naive_solver|].
      intros ([->|?] & ? & Hf); [by rewrite Hs in Hf|done]. }
  destruct (mark_and_count ch (elements s) (used, cm)) as [H2 H1].
  rewrite Hstep in H1, H2. simpl in H1, H2. subst cm1.
  rewrite count_of_count_snippets by apply NoDup_elements.
  destruct (decide (k ∈ elements s)) as [Hk|Hk].
  - assert (Hne : elements s <> []) by (by intros Heq; rewrite Heq in Hk;
      apply elem_of_nil in Hk).
    assert (Hsplit : counting chs k used (ch :: cs)
                     = {[ch]} ∪ counting chs k used1 cs).
    { apply set_eq. intros x.
      rewrite elem_of_union, elem_of_singleton, !elem_of_counting,
        elem_of_cons, H1.
      split.
      - intros ([->|Hx] & Hxu & Hf); [by left|].
        destruct (decide (x = ch)); [by left|]. right. naive_solver.
      - intros [->|(Hx & Hxu & Hf)].
        + split; [by left|]. split; [done|].
          unfold filed_under. rewrite Hs. by apply elem_of_elements.
        + split; [by right|]. split; [naive_solver|done]. }
    rewrite Hsplit, size_union, size_singleton; [lia|].
    apply disjoint_singleton_l. rewrite elem_of_counting, H1.
    naive_solver.
  - assert (Hsame : counting chs k used (ch :: cs) = counting chs k used1 cs).
    { apply set_eq. intros x.
      rewrite !elem_of_counting, elem_of_cons, H1.
      assert (Hnf : ~ filed_under chs k ch).
      { unfold filed_under. rewrite Hs. by rewrite <- elem_of_elements. }
      split.
      - intros ([->|Hx] & Hxu & Hf); [done|].
        split; [done|]. split; [|done].
        intros [?|[-> _]]; done.
      - intros (Hx & Hxu & Hf). split; [by right|]. split; [|done].
        intros ?. apply Hxu. by left. }
    rewrite Hsame. lia.
Qed.

End CharLoop.

Lemma count_chars_count chs k words :
  count_of k (count_chars chs words (∅, [])).2
  = distinct_chars_for chs k words.
Proof.
  unfold count_chars, distinct_chars_for.
  rewrite (foldl_concat (count_char chs) Str.chars_of).
  rewrite count_char_count. unfold count_of at 1. simpl.
  f_equal. apply set_eq. intros x.
  rewrite elem_of_counting, elem_of_list_to_set, list_elem_of_filter.
  unfold input_chars. set_solver.
Qed.

Lemma count_char_keys chs (P : string -> Prop) st ch :
  (forall key s x, chs !! key = Some s -> x ∈ s -> P x) ->
  NoDup st.2.*1 /\ Forall P st.2.*1 ->
  NoDup (count_char chs st ch).2.*1 /\ Forall P (count_char chs st ch).2.*1.
Proof.
  intros HP [Hnd Hall]. unfold count_char.
  case_decide; [by split|].
  destruct (chs !! ch) as [s|] eqn:Hs; [|by split].
  destruct (mark_and_count ch (elements s) st) as [-> _].
  split; [by apply count_snippets_NoDup|].
  apply Forall_forall. intros x [Hx|Hx]%count_snippets_elem_of.
  - eapply HP; [done|]. by apply elem_of_elements.
  - by eapply Forall_forall in Hall.
Qed.

Lemma count_chars_keys chs (P : string -> Prop) words :
  (forall key s x, chs !! key = Some s -> x ∈ s -> P x) ->
  NoDup (count_chars chs words (∅, [])).2.*1 /\
  Forall P (count_chars chs words (∅, [])).2.*1.
Proof.
  intros HP. unfold count_chars.
  rewrite (foldl_concat (count_char chs) Str.chars_of).
  apply (foldl_invariant (fun st => NoDup st.2.*1 /\ Forall P st.2.*1)).
  - split; [apply NoDup_nil_2|apply Forall_nil_2].
  - intros st ch _. by apply count_char_keys.
Qed.

Lemma count_tags_keys tgs (P : string -> Prop) words :
  (forall key s x, tgs !! key = Some s -> x ∈ s -> P x) ->
  NoDup (count_tags tgs words []).*1 /\
  Forall P (count_tags tgs words []).*1.
Proof.
  intros HP. split; [apply count_tags_NoDup, NoDup_nil_2|].
  apply Forall_forall. intros x [Hx|(w & s & _ & Hs & Hx)]%count_tags_elem_of.
  - by apply elem_of_nil in Hx.
  - by eapply HP.
Qed.

(** ** Ranking *)

Section SortFacts.
Implicit Types m : counter.

Lemma insert_by_value_perm x m : insert_by_value x m ≡ₚ x :: m.
Proof.
  induction m as [|y m IH]; simpl; [done|].
  destruct (x.2 <=? y.2)%nat; [done|].
  rewrite IH. apply Permutation_swap.
Qed.

Lemma sort_by_value_perm m : sort_by_value m ≡ₚ m.
Proof.
  induction m as [|x m IH]; simpl; [done|].
  by rewrite insert_by_value_perm, IH.
Qed.

Lemma insert_by_value_sorted x m :
  StronglySorted value_le m -> StronglySorted value_le (insert_by_value x m).
Proof.
  induction 1 as [|y m Hm IH Hy]; simpl.
  - repeat constructor.
  - destruct (Nat.leb_spec x.2 y.2) as [Hle|Hgt].
    + constructor; [by constructor|].
      constructor; [done|].
      eapply Forall_impl; [exact Hy|].
      unfold value_le. intros z Hz. lia.
    + constructor; [done|].
      rewrite insert_by_value_perm. constructor; [|done].
      unfold value_le. lia.
Qed.

Lemma sort_by_value_sorted m : StronglySorted value_le (sort_by_value m).
Proof.
  induction m as [|x m IH]; simpl; [constructor|].
  by apply insert_by_value_sorted.
Qed.

(** The sort is stable: items with the same value keep their order. *)
Lemma insert_by_value_stable n x m :
  filter (fun y => y.2 = n) (insert_by_value x m)
  = filter (fun y => y.2 = n) (x :: m).
Proof.
  induction m as [|y m IH]; [done|]. simpl insert_by_value.
  destruct (Nat.leb_spec x.2 y.2) as [Hle|Hgt]; [done|].
  rewrite (filter_cons _ y), IH, !filter_cons.
  repeat case_decide; try done; lia.
Qed.

Lemma sort_by_value_stable n m :
  filter (fun y => y.2 = n) (sort_by_value m) = filter (fun y => y.2 = n) m.
Proof.
  induction m as [|x m IH]; [done|]. simpl sort_by_value.
  by rewrite insert_by_value_stable, !filter_cons, IH.
Qed.

Lemma sorted_keys_perm m : sorted_keys m ≡ₚ m.*1.
Proof. unfold sorted_keys. by rewrite sort_by_value_perm. Qed.

Lemma StronglySorted_restrict {A} (R : relation A) (P : A -> Prop) l :
  StronglySorted R l -> Forall P l ->
  StronglySorted (fun a b => P a /\ P b /\ R a b) l.
Proof.
  induction 1 as [|x l Hl IH Hx]; intros Hall; [constructor|].
  apply Forall_cons in Hall as [Px Pl].
  constructor; [by apply IH|].
  apply Forall_forall. intros y Hy.
  rewrite Forall_forall in Hx, Pl. auto.
Qed.

(** The ranking is in ascending order of the counts. *)
Lemma sorted_keys_sorted m :
  NoDup m.*1 ->
  StronglySorted (fun a b => (count_of a m <= count_of b m)%nat)
                 (sorted_keys m).
Proof.
  intros Hnd. unfold sorted_keys.
  eapply StronglySorted_fmap;
    [|apply (StronglySorted_restrict value_le (fun p => p ∈ m));
      [apply sort_by_value_sorted|]].
  - intros [k1 n1] [k2 n2] (H1 & H2 & Hle). simpl.
    by rewrite (count_of_elem_of k1 n1), (count_of_elem_of k2 n2).
  - apply Forall_forall. intros p Hp. by rewrite sort_by_value_perm in Hp.
Qed.

Lemma sorted_keys_nil m : sorted_keys m = [] <-> m = [].
Proof.
  split; [|by intros ->].
  intros H. pose proof (Permutation_length (sorted_keys_perm m)) as Hl.
  rewrite H, length_fmap in Hl. by destruct m.
Qed.

Lemma length_ranked m :
  (length (take MAX_MATCHES (sorted_keys m)) <= MAX_MATCHES)%nat.
Proof. rewrite length_take. lia. Qed.

End SortFacts.

(** ** What each strategy leaves in the state *)

Lemma update_text_chars_outcome st words r :
  char_matches st = [] -> matches st = [] -> matches_shift st = [] ->
  update_text_chars st words = Ok r ->
  let cm := (count_chars (chars (index st)) words (∅, [])).2 in
  tag_matches r.1 = tag_matches st /\
  char_matches r.1 = cm /\
  matches r.1
  = loop_form (has_leading_uppercase st) (is_all_lowercase st)
      <$> take MAX_MATCHES (sorted_keys cm) /\
  matches_shift r.1 = Str.upper <$> take MAX_MATCHES (sorted_keys cm).
Proof.
  intros Hcm Hm Hms. unfold update_text_chars. rewrite Hcm.
  destruct (count_chars (chars (index st)) words (∅, [])) as [used cm].
  destruct st. fields. subst. destruct cm as [|q cm].
  - by intros [= <-].
  - rewrite ranked_matches_Ok. by intros [= <-].
Qed.

Lemma update_text_tags_outcome st key r :
  tag_matches st = [] -> char_matches st = [] ->
  matches st = [] -> matches_shift st = [] ->
  update_text_tags st key = Ok r ->
  let tm := tag_counter (index st) key in
  let cm := char_counter (index st) key in
  let form := loop_form (has_leading_uppercase st) (is_all_lowercase st) in
  tag_matches r.1 = tm /\
  (tm <> [] ->
     char_matches r.1 = [] /\
     matches r.1 = form <$> take MAX_MATCHES (sorted_keys tm) /\
     matches_shift r.1 = Str.upper <$> take MAX_MATCHES (sorted_keys tm)) /\
  (tm = [] ->
     char_matches r.1 = cm /\
     matches r.1 = form <$> take MAX_MATCHES (sorted_keys cm) /\
     matches_shift r.1 = Str.upper <$> take MAX_MATCHES (sorted_keys cm)).
Proof.
  intros Htm Hcm Hm Hms. unfold update_text_tags, tag_counter, char_counter.
  rewrite Htm.
  destruct (count_tags (tags (index st)) (Str.split key) []) as [|p tm] eqn:E.
  - replace (tag_matches (set_tag_matches [] st)) with (@nil (string * nat))
      by by destruct st.
    intros H. apply update_text_chars_outcome in H; [|by destruct st..].
    destruct st. fields. destruct H as (H1 & H2 & H3 & H4).
    by rewrite H1, H2, H3, H4.
  - replace (tag_matches (set_tag_matches (p :: tm) st)) with (p :: tm)
      by by destruct st.
    rewrite ranked_matches_Ok. destruct st. fields. subst.
    by intros [= <-].
Qed.

Section Outcome.
Variable self : App.
Variable raw : string.
Hypothesis nonblank : Str.strip raw <> "".

Lemma update_text_unfold :
  update_text (set_input_text raw self)
  = update_text_exact (classified (set_input_text raw self))
                      (Str.lower raw).
Proof. rewrite update_text_nonblank; by destruct self. Qed.

Lemma exact_literal_outcome c r :
  lowercase_snippets (index self) !! Str.lower raw = Some c ->
  update_text (set_input_text raw self) = Ok r ->
  matches r.1 = [exact_form raw c] /\ matches_shift r.1 = [Str.upper c].
Proof.
  intros Hc. rewrite update_text_unfold. unfold update_text_exact.
  replace (index (classified (set_input_text raw self))) with (index self)
    by by destruct self.
  rewrite Hc. intros [= <-]. by destruct self.
Qed.

Lemma exact_name_outcome c r :
  lowercase_snippets (index self) !! Str.lower raw = None ->
  lowercase_names (index self) !! Str.lower raw = Some c ->
  update_text (set_input_text raw self) = Ok r ->
  matches r.1 = [exact_form raw c] /\ matches_shift r.1 = [Str.upper c].
Proof.
  intros Hn Hc. rewrite update_text_unfold. unfold update_text_exact.
  replace (index (classified (set_input_text raw self))) with (index self)
    by by destruct self.
  rewrite Hn, Hc. intros [= <-]. by destruct self.
Qed.

(** Past the exact lookups: the tag counter is that of the tag loop;
    if it is not empty its ranking is the result, otherwise the
    ranking of the character counter is (the empty list when that
    counter is empty too). *)
Lemma ranked_outcome r :
  lowercase_snippets (index self) !! Str.lower raw = None ->
  lowercase_names (index self) !! Str.lower raw = None ->
  update_text (set_input_text raw self) = Ok r ->
  let tm := tag_counter (index self) (Str.lower raw) in
  let cm := char_counter (index self) (Str.lower raw) in
  let form := loop_form (leading_uppercase raw) (Str.islower raw) in
  tag_matches r.1 = tm /\
  (tm <> [] ->
     char_matches r.1 = [] /\
     matches r.1 = form <$> take MAX_MATCHES (sorted_keys tm) /\
     matches_shift r.1 = Str.upper <$> take MAX_MATCHES (sorted_keys tm)) /\
  (tm = [] ->
     char_matches r.1 = cm /\
     matches r.1 = form <$> take MAX_MATCHES (sorted_keys cm) /\
     matches_shift r.1 = Str.upper <$> take MAX_MATCHES (sorted_keys cm)).
Proof.
  intros Hn Hc. rewrite update_text_unfold. unfold update_text_exact.
  replace (index (classified (set_input_text raw self))) with (index self)
    by by destruct self.
  rewrite Hn, Hc. intros H.
  apply update_text_tags_outcome in H; [|by destruct self..].
  by destruct self.
Qed.

End Outcome.

(** ** Stripping, lower-casing and splitting *)

Section SplitFacts.

Lemma is_space_lower_char c :
  Str.is_space (Str.lower_char c) = Str.is_space c.
Proof. destruct c as [[] [] [] [] [] [] [] []]; reflexivity. Qed.

Lemma is_empty_lower s : Str.is_empty (Str.lower s) = Str.is_empty s.
Proof. by destruct s. Qed.

Lemma lower_lstrip s : Str.lower (Str.lstrip s) = Str.lstrip (Str.lower s).
Proof.
  induction s as [|c s IH]; simpl; [done|].
  rewrite is_space_lower_char. by destruct (Str.is_space c).
Qed.

Lemma lower_rstrip s : Str.lower (Str.rstrip s) = Str.rstrip (Str.lower s).
Proof.
  induction s as [|c s IH]; simpl; [done|].
  rewrite is_space_lower_char, <- IH, is_empty_lower.
  by destruct (Str.is_space c && Str.is_empty (Str.rstrip s)).
Qed.

Lemma lower_strip s : Str.lower (Str.strip s) = Str.strip (Str.lower s).
Proof. unfold Str.strip. by rewrite lower_rstrip, lower_lstrip. Qed.

Lemma split_lstrip s : Str.split (Str.lstrip s) = Str.split s.
Proof.
  unfold Str.split. induction s as [|c s IH]; simpl; [done|].
  destruct (Str.is_space c) eqn:E; [done|]. simpl. by rewrite E.
Qed.

Lemma split_from_all_space s : forall cur,
  all_space s = true ->
  Str.split_from cur s = Str.split_from cur "".
Proof.
  induction s as [|c s IH]; intros cur; simpl; [done|].
  intros [Hc Hs]%andb_prop. rewrite Hc.
  destruct cur; rewrite (IH [] Hs); done.
Qed.

Lemma split_from_rstrip s : forall cur,
  Str.split_from cur (Str.rstrip s) = Str.split_from cur s.
Proof.
  induction s as [|c s IH]; intros cur; [done|].
  simpl Str.rstrip.
  destruct (Str.is_space c && Str.is_empty (Str.rstrip s)) eqn:E.
  - apply andb_prop in E as [Hc He].
    apply is_empty_true, rstrip_empty in He.
    symmetry. apply split_from_all_space. simpl. by rewrite Hc, He.
  - simpl. destruct (Str.is_space c); [|apply IH].
    destruct cur; by rewrite IH.
Qed.

Lemma split_strip s : Str.split (Str.strip s) = Str.split s.
Proof.
  unfold Str.strip, Str.split at 1. rewrite split_from_rstrip.
  apply split_lstrip.
Qed.

(** The words of the lower-cased raw text are those of the lower-cased
    stripped text. *)
Lemma split_lower_strip raw :
  Str.split (Str.lower (Str.strip raw)) = Str.split (Str.lower raw).
Proof. by rewrite lower_strip, split_strip. Qed.

End SplitFacts.

(** ** Counters hold positive counts *)

Lemma incr_positive k m :
  Forall (fun p : string * nat => (0 < p.2)%nat) m ->
  Forall (fun p : string * nat => (0 < p.2)%nat) (incr k m).
Proof.
  induction 1 as [|[k1 n] m Hp Hm IH]; simpl.
  - repeat constructor.
  - destruct (decide (k = k1)); constructor; simpl in *; try done; lia.
Qed.

Lemma count_tags_positive tgs words :
  Forall (fun p : string * nat => (0 < p.2)%nat) (count_tags tgs words []).
Proof.
  unfold count_tags. apply foldl_invariant; [constructor|].
  intros m w _ Hm. destruct (tgs !! w); [|done].
  unfold count_snippets. apply foldl_invariant; [done|].
  intros m' s _. apply incr_positive.
Qed.

Lemma count_of_positive k m :
  Forall (fun p : string * nat => (0 < p.2)%nat) m ->
  k ∈ m.*1 <-> (0 < count_of k m)%nat.
Proof.
  unfold count_of. induction 1 as [|[k1 n] m Hp Hm IH]; simpl.
  - split; [by intros ?%elem_of_nil|lia].
  - rewrite elem_of_cons. destruct (decide (k = k1)) as [->|Hne]; simpl.
    + simpl in Hp. split; [done|by left].
    + rewrite <- IH. split; [by intros [?|?]|by right].
Qed.

(** ** The tag strategy *)

(** On any index: past the exact lookups, every word of the lower-cased
    stripped input, repeated words included, adds one to the counter of
    each snippet filed under it in the tag table; the counted snippets
    are exactly the keys of the counter, and the result is their
    ranking in ascending order of the counts, cut to the first
    [MAX_MATCHES]. *)
Lemma tag_counter_on_any_index
    (self : App) (raw : string) (r : App * option bool) :
  Str.strip raw <> "" ->
  lowercase_snippets (index self) !! Str.lower raw = None ->
  lowercase_names (index self) !! Str.lower raw = None ->
  update_text (set_input_text raw self) = Ok r ->
  let words := Str.split (Str.lower (Str.strip raw)) in
  let tm := tag_matches r.1 in
  (forall k, count_of k tm
             = length (filter (filed_under (tags (index self)) k) words)) /\
  (forall k, k ∈ tm.*1 <-> (0 < count_of k tm)%nat) /\
  (tm <> [] ->
     exists ranked,
       ranked ≡ₚ tm.*1 /\
       StronglySorted (fun a b => (count_of a tm <= count_of b tm)%nat)
                      ranked /\
       matches_shift r.1 = Str.upper <$> take MAX_MATCHES ranked /\
       matches r.1
       = loop_form (leading_uppercase raw) (Str.islower raw)
           <$> take MAX_MATCHES ranked /\
       (length (matches r.1) <= MAX_MATCHES)%nat).
Proof.
  intros Hnb Hs Hn Hr words tm.
  destruct (ranked_outcome self raw Hnb r Hs Hn Hr) as (Htm & Htag & _).
  fold tm in Htm. unfold words. rewrite split_lower_strip.
  split; [|split].
  - intros k. rewrite Htm. unfold tag_counter.
    by rewrite count_tags_count.
  - intros k. apply count_of_positive. rewrite Htm.
    apply count_tags_positive.
  - intros Hne. rewrite Htm in Hne. destruct (Htag Hne) as (_ & Hm & Hms).
    exists (sorted_keys tm). split; [apply sorted_keys_perm|]. split.
    + apply sorted_keys_sorted. rewrite Htm.
      apply count_tags_NoDup, NoDup_nil_2.
    + rewrite Htm. split; [done|]. split; [done|].
      rewrite Hm, length_fmap. apply length_ranked.
Qed.

(** The text [x x] counts two, not one, for a snippet tagged [x]: the
    counter does not go by distinct words. *)
Lemma repeated_tag_word_counts_again :
  ~ (forall (self : App) (raw : string) (r : App * option bool) (k : string),
       Str.strip raw <> "" ->
       lowercase_snippets (index self) !! Str.lower raw = None ->
       lowercase_names (index self) !! Str.lower raw = None ->
       update_text (set_input_text raw self) = Ok r ->
       count_of k (tag_matches r.1)
       = size (list_to_set
                 (filter (filed_under (tags (index self)) k)
                         (Str.split (Str.lower (Str.strip raw))))
               : gset string)).
Proof.
  intros H.
  destruct (update_text_Ok (set_input_text "x x" (app_of dict_ab)))
    as [r Hr].
  specialize (H (app_of dict_ab) "x x" r "a").
  assert (Hc : count_of "a" (tag_matches r.1) = 2%nat).
  { vm_compute in Hr. injection Hr as <-. vm_compute. reflexivity. }
  rewrite Hc in H.
  assert (H21 : 2%nat = 1%nat); [|discriminate H21].
  rewrite H at 1.
  - vm_compute. reflexivity.
  - vm_compute. discriminate.
  - vm_compute. reflexivity.
  - vm_compute. reflexivity.
  - exact Hr.
Qed.

(** ** The character strategy *)

(** C7: when the character strategy runs, the counter of a snippet is
    the number of distinct characters of the input under which the
    snippet is filed: a character counts at most once, however often it
    occurs in the same or in later words. *)
Theorem each_character_counts_once
    (self : App) (raw : string) (r : App * option bool) (k : string) :
  Str.strip raw <> "" ->
  lowercase_snippets (index self) !! Str.lower raw = None ->
  lowercase_names (index self) !! Str.lower raw = None ->
  tag_counter (index self) (Str.lower raw) = [] ->
  update_text (set_input_text raw self) = Ok r ->
  count_of k (char_matches r.1)
  = distinct_chars_for (chars (index self)) k
      (Str.split (Str.lower (Str.strip raw))).
Proof.
  intros Hnb Hs Hn Htm Hr.
  destruct (ranked_outcome self raw Hnb r Hs Hn Hr) as (_ & _ & Hch).
  destruct (Hch Htm) as (-> & _). unfold char_counter.
  by rewrite count_chars_count, split_lower_strip.
Qed.

(** On [A: chars a] the text [aa aa] counts one for the snippet. *)
Lemma each_character_counts_once_witness :
  exists r, update_text (set_input_text "aa aa" (app_of dict_a)) = Ok r /\
            count_of "a" (char_matches r.1) = 1%nat.
Proof.
  destruct (update_text_Ok (set_input_text "aa aa" (app_of dict_a)))
    as [r Hr].
  exists r. split; [exact Hr|].
  rewrite (each_character_counts_once (app_of dict_a) "aa aa" r "a").
  - vm_compute. reflexivity.
  - vm_compute. discriminate.
  - vm_compute. reflexivity.
  - vm_compute. reflexivity.
  - vm_compute. reflexivity.
  - exact Hr.
Defined.

(** ** The order of the strategies *)

Lemma truthy_ranked m :
  truthy (take MAX_MATCHES (sorted_keys m)) = truthy m.
Proof.
  destruct (sorted_keys m) as [|k l] eqn:E.
  - apply sorted_keys_nil in E. by subst.
  - destruct m; [done|]. done.
Qed.

Lemma update_text_by_strategy self raw r :
  Str.strip raw <> "" ->
  update_text (set_input_text raw self) = Ok r ->
  match first_yielding (index self) (Str.lower raw) strategies with
  | Some s =>
      matches r.1
      = code_form s raw <$> candidates_of (index self) (Str.lower raw) s /\
      matches_shift r.1
      = Str.upper <$> candidates_of (index self) (Str.lower raw) s
  | None => matches r.1 = [] /\ matches_shift r.1 = []
  end.
Proof.
  intros Hnb Hr. unfold strategies, first_yielding.
  cbn [candidates_of].
  destruct (lowercase_snippets (index self) !! Str.lower raw) as [c|] eqn:Hs.
  { simpl. rewrite Hs. by eapply exact_literal_outcome. }
  destruct (lowercase_names (index self) !! Str.lower raw) as [c|] eqn:Hn.
  { simpl. rewrite Hn. by eapply exact_name_outcome. }
  cbn [option_list truthy]. rewrite !truthy_ranked.
  destruct (ranked_outcome self raw Hnb r Hs Hn Hr) as (_ & Htag & Hch).
  destruct (tag_counter (index self) (Str.lower raw)) as [|p tm] eqn:Htm.
  - destruct Hch as (_ & Hm & Hms); [done|]. cbn [truthy].
    destruct (char_counter (index self) (Str.lower raw)) as [|q cm] eqn:Hcm.
    + done.
    + change (truthy (option_list (@None string))) with false.
      cbn [truthy candidates_of code_form]. by rewrite Hcm.
  - destruct Htag as (_ & Hm & Hms); [done|].
    change (truthy (option_list (@None string))) with false.
    cbn [truthy candidates_of code_form]. by rewrite Htm.
Qed.

(** The nesting of the code's lookups: past the guard on blank input
    the result is that of the first of the code's own lookups, in the
    order exact literal, exact name, tag, character, that yields a
    candidate for the lower-cased raw text; if none does, or the input
    is blank, the result is empty. *)
Lemma first_yielding_lookup_decides (self : App) (raw : string) :
  resolve self raw
  = Ok (if Str.is_empty (Str.strip raw) then ([], [])
        else
          match first_yielding (index self) (Str.lower raw)
                  [ExactLiteral; ExactName; TagMatch; CharMatch] with
          | Some s =>
              (code_form s raw
                 <$> candidates_of (index self) (Str.lower raw) s,
               Str.upper <$> candidates_of (index self) (Str.lower raw) s)
          | None => ([], [])
          end).
Proof.
  destruct (Str.is_empty (Str.strip raw)) eqn:Hnb.
  { apply is_empty_true in Hnb. unfold resolve.
    rewrite update_text_blank by by destruct self. by destruct self. }
  apply is_empty_false in Hnb. unfold resolve.
  destruct (update_text_Ok (set_input_text raw self)) as [r Hr].
  rewrite Hr.
  change (Ok r ≫= _) with
    (Ok (A := list string * list string) (matches r.1, matches_shift r.1)).
  pose proof (update_text_by_strategy self raw r Hnb Hr) as H.
  unfold strategies in H.
  destruct (first_yielding _ _ _); destruct H as [-> ->]; done.
Qed.

(** On [dict_overlap] the text [pi] is an exact word, an exact name, a
    tag and characters of snippets; only the exact word is returned. *)
Lemma overlapping_strategies_example :
  Forall (fun s => candidates_of (index (app_of dict_overlap)) "pi" s <> [])
         strategies /\
  resolve (app_of dict_overlap) "pi" = Ok (["pi"], ["PI"]) /\
  resolve (app_of dict_overlap) "circle" = Ok (["pi"], ["PI"]) /\
  resolve (app_of dict_overlap) "pi x" = Ok (["tau"], ["TAU"]) /\
  resolve (app_of dict_overlap) "px" = Ok (["phi"], ["PHI"]).
Proof.
  split; [repeat constructor; vm_compute; discriminate|].
  repeat split; vm_compute; reflexivity.
Qed.

(** ** Case adaptation *)

Lemma elem_of_ranked k m :
  k ∈ take MAX_MATCHES (sorted_keys m) -> k ∈ m.*1.
Proof.
  intros Hk. rewrite <- sorted_keys_perm.
  by apply (subseteq_take MAX_MATCHES).
Qed.

(** On a lower-case candidate the rule of the loop, the rule of the
    exact strategies and the case adapter agree. *)
Lemma case_adapt_lowercase raw c :
  Str.lower c = c ->
  case_adapt raw c = exact_form raw c /\
  loop_form (leading_uppercase raw) (Str.islower raw) c = exact_form raw c.
Proof.
  intros Hc. unfold case_adapt, loop_form, exact_form.
  destruct (leading_uppercase raw); [done|].
  rewrite Hc. by destruct (all_lowercase raw), (Str.islower raw).
Qed.

(** In terms of the stored candidates [c] of the lookup that decides:
    the shift form is [upper c]; the primary form is that of the case
    adapter for the candidates of the exact-name, tag and character
    lookups (which are stored in lower case), and for an exact literal
    match it is [upper c] after a leading upper-case letter and the
    stored word [c] itself otherwise. *)
Lemma forms_of_stored_candidates
    (dictionary : list (string * Data)) (self : App) (raw : string)
    (s : strategy) :
  build_dictionary dictionary = Ok (index self) ->
  Str.strip raw <> "" ->
  first_yielding (index self) (Str.lower raw) strategies = Some s ->
  resolve self raw
  = Ok (primary_form s raw <$> candidates_of (index self) (Str.lower raw) s,
        Str.upper <$> candidates_of (index self) (Str.lower raw) s).
Proof.
  intros Hb Hnb Hfirst. unfold resolve.
  destruct (update_text_Ok (set_input_text raw self)) as [r Hr].
  rewrite Hr.
  change (Ok r ≫= _) with
    (Ok (A := list string * list string) (matches r.1, matches_shift r.1)).
  pose proof (update_text_by_strategy self raw r Hnb Hr) as H.
  rewrite Hfirst in H. destruct H as [-> ->]. do 2 f_equal.
  apply list_fmap_ext. intros i c Hc. apply list_elem_of_lookup_2 in Hc.
  destruct s; cbn [code_form primary_form candidates_of] in *.
  - done.
  - destruct (lowercase_names (index self) !! Str.lower raw) as [c'|] eqn:Hn;
      [|by apply elem_of_nil in Hc].
    apply list_elem_of_singleton in Hc as ->.
    symmetry. apply case_adapt_lowercase.
    by eapply built_name_lowercase.
  - apply elem_of_ranked in Hc.
    destruct (count_tags_keys (tags (index self))
                (fun x => Str.lower x = x)
                (Str.split (Str.lower raw))) as [_ Hall].
    { intros key t x. by eapply built_tag_lowercase. }
    rewrite Forall_forall in Hall. specialize (Hall c Hc).
    destruct (case_adapt_lowercase raw c Hall) as [-> ->]. done.
  - apply elem_of_ranked in Hc.
    destruct (count_chars_keys (chars (index self))
                (fun x => Str.lower x = x)
                (Str.split (Str.lower raw))) as [_ Hall].
    { intros key t x. by eapply built_char_lowercase. }
    rewrite Forall_forall in Hall. specialize (Hall c Hc).
    destruct (case_adapt_lowercase raw c Hall) as [-> ->]. done.
Qed.

(** * Further properties of the code *)

(** ** Building the index *)

Section BuildMore.

Lemma build_entry_named item idx :
  named item -> exists idx', build_entry item idx = Ok idx'.
Proof.
  destruct item as [word data]. unfold named, build_entry. simpl.
  destruct (d_name data) as [name|]; [|done]. intros Hne.
  apply is_empty_false in Hne as He. rewrite He, is_empty_lower, He. eauto.
Qed.

Lemma build_entry_unnamed item idx :
  ~ named item ->
  build_entry item idx
  = Raise (match d_name item.2 with
           | None => KeyError
           | Some _ => AssertionError
           end).
Proof.
  destruct item as [word data]. unfold named, build_entry. simpl.
  destruct (d_name data) as [name|]; [|done]. intros Hne.
  destruct (Str.is_empty name) eqn:He; [done|].
  apply is_empty_false in He. by destruct Hne.
Qed.

Lemma for_each_build_named items : forall idx,
  Forall named items -> exists idx', for_each build_entry items idx = Ok idx'.
Proof.
  induction items as [|item items IH]; intros idx Hall; simpl; [eauto|].
  apply Forall_cons in Hall as [Hn Hall].
  destruct (build_entry_named item idx Hn) as [idx1 ->]. simpl. by apply IH.
Qed.

Lemma for_each_build_unnamed pre item post : forall idx,
  Forall named pre -> ~ named item ->
  for_each build_entry (pre ++ item :: post) idx
  = Raise (match d_name item.2 with
           | None => KeyError
           | Some _ => AssertionError
           end).
Proof.
  induction pre as [|p pre IH]; intros idx Hall Hbad; simpl.
  - by rewrite build_entry_unnamed.
  - apply Forall_cons in Hall as [Hn Hall].
    destruct (build_entry_named p idx Hn) as [idx1 ->]. simpl. by apply IH.
Qed.

End BuildMore.

(** X1: on a dictionary whose entries are mappings with string names
    and lists of strings for tags and characters (the documents that
    [Data] covers), [build_dictionary] succeeds exactly when every
    entry has a non-empty name; otherwise it stops at the first entry
    without one, with [KeyError] if the key [name] is missing and
    [AssertionError] if the name is empty. *)
Theorem build_succeeds_iff_all_named (dictionary : list (string * Data)) :
  ((exists idx, build_dictionary dictionary = Ok idx)
   <-> Forall named dictionary) /\
  (forall pre item post,
     dictionary = pre ++ item :: post -> Forall named pre -> ~ named item ->
     build_dictionary dictionary
     = Raise (match d_name item.2 with
              | None => KeyError
              | Some _ => AssertionError
              end)).
Proof.
  split.
  - split; [|apply for_each_build_named].
    intros [idx Hb]. apply Forall_forall. intros item Hin.
    destruct (decide (named item)) as [|Hbad]; [done|]. exfalso.
    assert (Hex : Exists (fun it => ~ named it) dictionary).
    { apply Exists_exists. eauto. }
    clear item Hin Hbad. unfold build_dictionary in Hb.
    revert Hb. generalize empty_index.
    induction Hex as [item post Hbad|item post Hex IH]; intros idx0; simpl.
    + by rewrite build_entry_unnamed.
    + destruct (build_entry item idx0); simpl; [apply IH|done].
  - intros pre item post -> Hall Hbad. by apply for_each_build_unnamed.
Qed.

Lemma build_succeeds_iff_all_named_witness :
  (exists idx, build_dictionary dict_ab = Ok idx) /\
  build_dictionary
    (dict_ab ++ [("C", {| d_name := None; d_tags := None; d_chars := None |});
                 ("D", entry "delta" [] [])])
  = Raise KeyError /\
  build_dictionary (dict_ab ++ [("C", entry "" [] [])])
  = Raise AssertionError.
Proof.
  split; [|split].
  - apply (build_succeeds_iff_all_named dict_ab).
    repeat constructor; vm_compute; discriminate.
  - apply (build_succeeds_iff_all_named _) with (pre := dict_ab)
      (item := ("C", {| d_name := None; d_tags := None; d_chars := None |}))
      (post := [("D", entry "delta" [] [])]).
    + reflexivity.
    + repeat constructor; vm_compute; discriminate.
    + vm_compute. tauto.
  - apply (build_succeeds_iff_all_named _) with (pre := dict_ab)
      (item := ("C", entry "" [] [])) (post := []).
    + reflexivity.
    + repeat constructor; vm_compute; discriminate.
    + vm_compute. tauto.
Defined.

(** ** What the tables of a built index contain *)

Section TableFacts.

Lemma filed_under_add_to m key w k t :
  filed_under (add_to m key w) k t
  <-> filed_under m k t \/ (k = w /\ t = key).
Proof.
  unfold filed_under, add_to.
  destruct (m !! key) as [s|] eqn:E.
  - destruct (decide (key = t)) as [<-|Hne].
    + rewrite lookup_insert_eq, E, elem_of_union, elem_of_singleton.
      split; [intros [?|?]; [by left|by right]|].
      intros [?|[? _]]; [by left|by right].
    + rewrite lookup_insert_ne by done.
      split; [by left|]. intros [?|[_ ?]]; [done|]. by subst.
  - destruct (decide (key = t)) as [<-|Hne].
    + rewrite lookup_insert_eq, E, elem_of_singleton.
      split; [by right|]. by intros [[]|[? _]].
    + rewrite lookup_insert_ne by done.
      split; [by left|]. intros [?|[_ ?]]; [done|]. by subst.
Qed.

Lemma filed_under_foldl_add_to w keys k t : forall m,
  filed_under (foldl (fun m key => add_to m key w) m keys) k t
  <-> filed_under m k t \/ (k = w /\ t ∈ keys).
Proof.
  induction keys as [|key keys IH]; intros m; simpl.
  - split; [by left|]. intros [?|[_ ?%elem_of_nil]]; done.
  - rewrite IH, filed_under_add_to, elem_of_cons. tauto.
Qed.

Lemma build_entry_tables item idx idx' :
  build_entry item idx = Ok idx' ->
  (forall k t, filed_under (tags idx') k t
     <-> filed_under (tags idx) k t
         \/ (k = Str.lower item.1 /\ declares_tag t item)) /\
  (forall k t, filed_under (chars idx') k t
     <-> filed_under (chars idx) k t
         \/ (k = Str.lower item.1 /\ declares_char t item)) /\
  (forall k, lowercase_snippets idx' !! k
     = if decide (Str.lower item.1 = k) then Some item.1
       else lowercase_snippets idx !! k) /\
  (forall n, lowercase_names idx' !! n
     = if decide (named_as n item) then Some (Str.lower item.1)
       else lowercase_names idx !! n).
Proof.
  destruct item as [word data]. unfold build_entry, declares_tag,
    declares_char.
  destruct (d_name data) as [name|] eqn:Hname; [|done].
  destruct (Str.is_empty name); [done|].
  destruct (Str.is_empty (Str.lower name)); [done|].
  intros [= <-]. simpl.
  split; [|split; [|split]].
  - intros k t. apply filed_under_foldl_add_to.
  - intros k t. apply filed_under_foldl_add_to.
  - intros k. apply lookup_insert.
  - intros n. rewrite lookup_insert.
    destruct (decide (named_as n (word, data))) as [Hd|Hd];
      unfold named_as in Hd; simpl in Hd; rewrite Hname in Hd; simpl in Hd.
    + injection Hd as ->. by rewrite decide_True.
    + rewrite decide_False; [done|]. intros Heq. apply Hd. by rewrite Heq.
Qed.

(** The tables after the loop over [items], from those before it. *)
Lemma for_each_build_tables items : forall idx idx',
  for_each build_entry items idx = Ok idx' ->
  (forall k t, filed_under (tags idx') k t
     <-> filed_under (tags idx) k t
         \/ exists item, item ∈ items /\ Str.lower item.1 = k
                         /\ declares_tag t item) /\
  (forall k t, filed_under (chars idx') k t
     <-> filed_under (chars idx) k t
         \/ exists item, item ∈ items /\ Str.lower item.1 = k
                         /\ declares_char t item) /\
  (forall k, lowercase_snippets idx' !! k
     = match last (filter (fun w => Str.lower w = k) items.*1) with
       | Some w => Some w
       | None => lowercase_snippets idx !! k
       end) /\
  (forall n, lowercase_names idx' !! n
     = match last (filter (named_as n) items) with
       | Some item => Some (Str.lower item.1)
       | None => lowercase_names idx !! n
       end).
Proof.
  induction items as [|item items IH]; intros idx idx'.
  { intros [= <-]. split_and!; try done.
    - intros k t. split; [by left|].
      intros [?|(? & ?%elem_of_nil & _)]; done.
    - intros k t. split; [by left|].
      intros [?|(? & ?%elem_of_nil & _)]; done. }
  simpl for_each. destruct (build_entry item idx) as [idx1|] eqn:E; [|done].
  simpl. intros H.
  destruct (build_entry_tables _ _ _ E) as (Ht1 & Hc1 & Hs1 & Hn1).
  destruct (IH _ _ H) as (Ht & Hc & Hs & Hn). split_and!.
  - intros k t. rewrite Ht, Ht1. split.
    + intros [[?|[-> ?]]|(it & ? & ? & ?)]; [by left|right..].
      * exists item. split; [apply list_elem_of_here|done].
      * exists it. split; [by apply list_elem_of_further|done].
    + intros [?|(it & [->|?]%elem_of_cons & Hk & ?)].
      * left. by left.
      * left. right. done.
      * right. eauto.
  - intros k t. rewrite Hc, Hc1. split.
    + intros [[?|[-> ?]]|(it & ? & ? & ?)]; [by left|right..].
      * exists item. split; [apply list_elem_of_here|done].
      * exists it. split; [by apply list_elem_of_further|done].
    + intros [?|(it & [->|?]%elem_of_cons & Hk & ?)].
      * left. by left.
      * left. right. done.
      * right. eauto.
  - intros k. rewrite Hs, Hs1, ?fmap_cons, filter_cons.
    destruct (decide (Str.lower item.1 = k)) as [Hk|Hk].
    + rewrite last_cons. by destruct (last _).
    + done.
  - intros n. rewrite Hn, Hn1, filter_cons.
    destruct (decide (named_as n item)) as [Hk|Hk].
    + rewrite last_cons. by destruct (last _).
    + done.
Qed.

Lemma foldl_add_to_nonempty w keys : forall m : gmap string (gset string),
  (forall t s, m !! t = Some s -> s <> ∅) ->
  forall t s, foldl (fun m key => add_to m key w) m keys !! t = Some s ->
              s <> ∅.
Proof.
  induction keys as [|key keys IH]; intros m Hm; simpl; [done|].
  apply IH. intros t s. unfold add_to.
  destruct (m !! key) as [s0|] eqn:E0;
    (destruct (decide (key = t)) as [<-|Hkt];
     [rewrite lookup_insert_eq; intros [= <-]
     |rewrite lookup_insert_ne by done; apply Hm]).
  - apply (non_empty_inhabited_L w). apply elem_of_union_r.
    by apply elem_of_singleton.
  - apply (non_empty_inhabited_L w). by apply elem_of_singleton.
Qed.

Lemma build_entry_nonempty item idx idx' :
  (forall t s, tags idx !! t = Some s -> s <> ∅) /\
  (forall t s, chars idx !! t = Some s -> s <> ∅) ->
  build_entry item idx = Ok idx' ->
  (forall t s, tags idx' !! t = Some s -> s <> ∅) /\
  (forall t s, chars idx' !! t = Some s -> s <> ∅).
Proof.
  destruct item as [word data]. intros [Ht Hc]. unfold build_entry.
  destruct (d_name data) as [name|]; [|done].
  destruct (Str.is_empty name); [done|].
  destruct (Str.is_empty (Str.lower name)); [done|].
  intros [= <-]. simpl. split; by apply foldl_add_to_nonempty.
Qed.

End TableFacts.

(** X2: in a built index a snippet is filed under a tag (a character)
    exactly when it is the lower-cased word of a dictionary entry that
    lists that tag (that character); in particular no set of the tables
    is empty. *)
Theorem tables_hold_exactly_the_declared
    (dictionary : list (string * Data)) (idx : Index) :
  build_dictionary dictionary = Ok idx ->
  (forall k t, filed_under (tags idx) k t
     <-> exists item, item ∈ dictionary /\ Str.lower item.1 = k
                      /\ declares_tag t item) /\
  (forall k t, filed_under (chars idx) k t
     <-> exists item, item ∈ dictionary /\ Str.lower item.1 = k
                      /\ declares_char t item) /\
  (forall t s, tags idx !! t = Some s \/ chars idx !! t = Some s ->
               s <> ∅).
Proof.
  intros Hb. unfold build_dictionary in Hb.
  destruct (for_each_build_tables _ _ _ Hb) as (Ht & Hc & _ & _).
  assert (Hnone : forall k t,
            ~ filed_under (∅ : gmap string (gset string)) k t).
  { intros k t. unfold filed_under. rewrite lookup_empty. tauto. }
  split_and!.
  - intros k t. rewrite Ht. simpl. split; [intros [?%Hnone|?]; done|by right].
  - intros k t. rewrite Hc. simpl. split; [intros [?%Hnone|?]; done|by right].
  - intros t s.
    assert (Hne : (forall t s, tags idx !! t = Some s -> s <> ∅) /\
                  (forall t s, chars idx !! t = Some s -> s <> ∅)).
    { apply (for_each_invariant
               (fun i => (forall t s, tags i !! t = Some s -> s <> ∅) /\
                         (forall t s, chars i !! t = Some s -> s <> ∅))
               build_entry dictionary empty_index idx); [| |done].
      - split; intros t' s'; simpl; by rewrite lookup_empty.
      - intros item i i' _. apply build_entry_nonempty. }
    destruct Hne as [H1 H2]. intros [H|H]; eauto.
Qed.

Lemma tables_hold_exactly_the_declared_witness :
  filed_under (tags (index (app_of dict_ab))) "a" "y" /\
  ~ filed_under (tags (index (app_of dict_ab))) "b" "y".
Proof.
  destruct (tables_hold_exactly_the_declared dict_ab (index (app_of dict_ab)))
    as (Ht & _ & _); [reflexivity|].
  split.
  - apply Ht. exists ("A", entry "alpha" ["x"; "y"] []).
    split; [apply list_elem_of_here|]. split; [reflexivity|].
    vm_compute. apply list_elem_of_further, list_elem_of_here.
  - vm_compute. intros H. discriminate H.
Defined.

(** X3: the exact tables keep the last entry: the lower-cased word [k]
    leads to the last dictionary word whose lower-case form is [k], and
    the lower-cased name [n] to the lower-cased word of the last entry
    so named; a text that is neither leads nowhere. *)
Theorem exact_tables_keep_the_last_entry
    (dictionary : list (string * Data)) (idx : Index) (k : string) :
  build_dictionary dictionary = Ok idx ->
  lowercase_snippets idx !! k
  = last (filter (fun w => Str.lower w = k) (words_of dictionary)) /\
  lowercase_names idx !! k
  = (fun item : string * Data => Str.lower item.1)
      <$> last (filter (named_as k) dictionary).
Proof.
  intros Hb. unfold build_dictionary in Hb.
  destruct (for_each_build_tables _ _ _ Hb) as (_ & _ & Hs & Hn).
  rewrite Hs, Hn. unfold words_of. simpl. rewrite !lookup_empty.
  split; by destruct (last _).
Qed.

Lemma exact_tables_keep_the_last_entry_witness :
  lowercase_snippets (index (app_of dict_twice)) !! "pi" = Some "PI" /\
  lowercase_names (index (app_of dict_twice)) !! "circle" = Some "pi" /\
  lowercase_names (index (app_of dict_twice)) !! "Circle" = None.
Proof.
  pose proof (exact_tables_keep_the_last_entry dict_twice
                (index (app_of dict_twice))) as H.
  split; [|split].
  - destruct (H "pi") as [-> _]; reflexivity.
  - destruct (H "circle") as [_ ->]; reflexivity.
  - destruct (H "Circle") as [_ ->]; reflexivity.
Defined.

(** ** The state after a resolution *)

Section ResolutionFacts.

Lemma upper_char_idem c : Str.upper_char (Str.upper_char c) = Str.upper_char c.
Proof. destruct c as [[] [] [] [] [] [] [] []]; reflexivity. Qed.

Lemma upper_idem s : Str.upper (Str.upper s) = Str.upper s.
Proof.
  induction s as [|c s IH]; simpl; [done|]. by rewrite upper_char_idem, IH.
Qed.

Lemma upper_lower_char c : Str.upper_char (Str.lower_char c) = Str.upper_char c.
Proof. destruct c as [[] [] [] [] [] [] [] []]; reflexivity. Qed.

Lemma upper_lower s : Str.upper (Str.lower s) = Str.upper s.
Proof.
  induction s as [|c s IH]; simpl; [done|]. by rewrite upper_lower_char, IH.
Qed.

Lemma upper_code_form s raw c :
  Str.upper (code_form s raw c) = Str.upper c.
Proof.
  destruct s; unfold code_form, exact_form, loop_form;
    destruct (leading_uppercase raw); rewrite ?upper_idem; try done;
    destruct (Str.islower raw); by rewrite ?upper_lower.
Qed.

Lemma set_input_text_same self : set_input_text (input_text self) self = self.
Proof. by destruct self. Qed.

Lemma length_candidates_of idx key s :
  (length (candidates_of idx key s) <= MAX_MATCHES)%nat.
Proof.
  destruct s; simpl; try apply length_ranked;
    destruct (_ !! key); simpl; unfold MAX_MATCHES; lia.
Qed.

Lemma update_text_chars_session st words r :
  update_text_chars st words = Ok r -> same_session r.1 st.
Proof.
  unfold update_text_chars.
  destruct (count_chars _ _ _) as [u cm].
  destruct (char_matches (set_char_matches cm st)) eqn:E.
  - intros [= <-]. by destruct st.
  - rewrite ranked_matches_Ok. simpl. intros [= <-]. by destruct st.
Qed.

Lemma update_text_tags_session st key r :
  update_text_tags st key = Ok r -> same_session r.1 st.
Proof.
  unfold update_text_tags.
  destruct (tag_matches (set_tag_matches _ st)) eqn:E.
  - intros H%update_text_chars_session. by destruct st.
  - rewrite ranked_matches_Ok. simpl. intros [= <-]. by destruct st.
Qed.

Lemma update_text_exact_session st key r :
  update_text_exact st key = Ok r -> same_session r.1 st.
Proof.
  unfold update_text_exact.
  destruct (lowercase_snippets _ !! key);
    [intros [= <-]; by destruct st|].
  destruct (lowercase_names _ !! key);
    [intros [= <-]; by destruct st|].
  apply update_text_tags_session.
Qed.

Lemma update_text_chars_shift st words r :
  update_text_chars st words = Ok r -> shift r.1 = shift st.
Proof.
  unfold update_text_chars.
  destruct (count_chars _ _ _) as [u cm].
  destruct (char_matches (set_char_matches cm st)) eqn:E.
  - intros [= <-]. by destruct st.
  - rewrite ranked_matches_Ok. simpl. intros [= <-]. by destruct st.
Qed.

Lemma update_text_tags_shift st key r :
  update_text_tags st key = Ok r -> shift r.1 = shift st.
Proof.
  unfold update_text_tags.
  destruct (tag_matches (set_tag_matches _ st)) eqn:E.
  - intros H%update_text_chars_shift. rewrite H. by destruct st.
  - rewrite ranked_matches_Ok. simpl. intros [= <-]. by destruct st.
Qed.

Lemma update_text_exact_shift st key r :
  update_text_exact st key = Ok r -> shift r.1 = shift st.
Proof.
  unfold update_text_exact.
  destruct (lowercase_snippets _ !! key);
    [intros [= <-]; by destruct st|].
  destruct (lowercase_names _ !! key);
    [intros [= <-]; by destruct st|].
  apply update_text_tags_shift.
Qed.

(** A resolution keeps the session and releases the shift flag. *)
Lemma update_text_session self r :
  update_text self = Ok r -> same_session r.1 self /\ shift r.1 = false.
Proof.
  destruct (decide (Str.strip (input_text self) = "")) as [H|H].
  - rewrite update_text_blank by done. intros [= <-]. by destruct self.
  - rewrite update_text_nonblank by done. intros Hr. split.
    + apply update_text_exact_session in Hr. by destruct self.
    + apply update_text_exact_shift in Hr. rewrite Hr. by destruct self.
Qed.

(** The two candidate lists after a resolution, by the deciding
    strategy. *)
Lemma update_text_candidates self r :
  update_text self = Ok r ->
  exists cs form,
    (length cs <= MAX_MATCHES)%nat /\
    (forall c, Str.upper (form c) = Str.upper c) /\
    (leading_uppercase (input_text self) = true ->
     forall c, form c = Str.upper c) /\
    matches r.1 = form <$> cs /\ matches_shift r.1 = Str.upper <$> cs.
Proof.
  intros Hr.
  destruct (decide (Str.strip (input_text self) = "")) as [H|H].
  - rewrite update_text_blank in Hr by done. injection Hr as <-.
    exists [], Str.upper. split; [simpl; lia|].
    split; [apply upper_idem|]. split; [done|]. by destruct self.
  - rewrite <- (set_input_text_same self) in Hr.
    pose proof (update_text_by_strategy _ _ _ H Hr) as Hs.
    destruct (first_yielding _ _ _) as [s|].
    + destruct Hs as [Hm Hms].
      exists (candidates_of (index self) (Str.lower (input_text self)) s),
             (code_form s (input_text self)).
      split; [apply length_candidates_of|].
      split; [apply upper_code_form|]. split; [|done].
      intros Hl c. destruct s; unfold code_form, exact_form, loop_form;
        by rewrite Hl.
    + destruct Hs as [Hm Hms]. exists [], Str.upper.
      split; [simpl; lia|]. split; [apply upper_idem|]. done.
Qed.

End ResolutionFacts.

(** X5: when the typed text starts with an upper-case letter, every
    primary form is the shift form: [matches] and [matches_shift] are
    the same list. *)
Theorem leading_uppercase_gives_shift_forms
    (self : App) (r : App * option bool) :
  leading_uppercase (input_text self) = true ->
  update_text self = Ok r ->
  matches r.1 = matches_shift r.1.
Proof.
  intros Hl Hr.
  destruct (update_text_candidates self r Hr)
    as (cs & form & _ & _ & Hf & -> & ->).
  apply list_fmap_ext. intros i c _. by apply Hf.
Qed.

Lemma leading_uppercase_gives_shift_forms_witness :
  exists r, update_text (set_input_text "Math" (app_of dict_pi)) = Ok r /\
            matches r.1 = matches_shift r.1.
Proof.
  destruct (update_text_Ok (set_input_text "Math" (app_of dict_pi)))
    as [r Hr].
  exists r. split; [exact Hr|].
  apply (leading_uppercase_gives_shift_forms
           (set_input_text "Math" (app_of dict_pi)) r); [reflexivity|exact Hr].
Defined.

(** ** The event loop *)

Section EventFacts.

Lemma len_pos {A} (l : list A) : l <> [] -> (0 < len l)%Z.
Proof. destruct l; [done|]. unfold len. simpl length. lia. Qed.

Lemma len_nil {A} : len (@nil A) = 0%Z.
Proof. done. Qed.

Lemma consistent_update self r : update_text self = Ok r -> consistent r.1.
Proof.
  intros Hr. unfold consistent.
  rewrite (update_text_selection _ _ Hr).
  destruct (update_text_candidates self r Hr)
    as (cs & form & _ & _ & _ & -> & ->).
  rewrite !length_fmap. split; [done|]. lia.
Qed.

Lemma consistent_select_next self :
  consistent self -> consistent (select_next self).
Proof.
  intros [Hl Hs].
  destruct (decide (matches self = [])) as [He|Hne].
  - unfold select_next. by rewrite He.
  - split.
    + unfold select_next. destruct (matches self) eqn:E; [done|].
      simpl truthy. cbv iota. by destruct self; fields; subst.
    + rewrite selection_select_next by done.
      replace (matches (select_next self)) with (matches self).
      * pose proof (len_pos _ Hne).
        pose proof (Z.mod_pos_bound (selection self + 1)
                      (len (matches self))).
        lia.
      * unfold select_next. destruct (matches self) eqn:E; [done|].
        simpl truthy. cbv iota. by destruct self; fields; subst.
Qed.

Lemma consistent_select_prev self :
  consistent self -> consistent (select_prev self).
Proof.
  intros [Hl Hs].
  destruct (decide (matches self = [])) as [He|Hne].
  - unfold select_prev. by rewrite He.
  - split.
    + unfold select_prev. destruct (matches self) eqn:E; [done|].
      simpl truthy. cbv iota. by destruct self; fields; subst.
    + rewrite selection_select_prev by done.
      replace (matches (select_prev self)) with (matches self).
      * pose proof (len_pos _ Hne).
        pose proof (Z.mod_pos_bound (selection self - 1)
                      (len (matches self))).
        lia.
      * unfold select_prev. destruct (matches self) eqn:E; [done|].
        simpl truthy. cbv iota. by destruct self; fields; subst.
Qed.

(** Reading a list at a valid index. *)
Lemma list_getitem_in_range {A} (l : list A) (i : Z) :
  (0 <= i < len l)%Z ->
  exists x, l !! Z.to_nat i = Some x /\ list_getitem l i = Ok x.
Proof.
  intros Hi. unfold list_getitem, len in *.
  destruct (Z.ltb_spec i 0) as [?|_]; [lia|].
  replace ((0 <=? i) && (i <? Z.of_nat (length l)))%Z with true.
  - destruct (l !! Z.to_nat i) as [x|] eqn:E; [eauto|].
    apply lookup_ge_None in E. lia.
  - symmetry. apply andb_true_intro.
    split; [apply Z.leb_le|apply Z.ltb_lt]; lia.
Qed.

Lemma submit_ok self :
  consistent self -> matches self <> [] ->
  exists c,
    (if shift self then matches_shift self else matches self)
      !! Z.to_nat (selection self) = Some c /\
    submit self
    = Ok (set_stdout (stdout self ++ [c])
            (set_done true (set_clipboard c self))).
Proof.
  intros [Hl Hs] Hne. pose proof (len_pos _ Hne) as Hp.
  assert (Hr : (0 <= selection self < len (matches self))%Z) by lia.
  unfold submit. destruct (shift self).
  - destruct (list_getitem_in_range (matches_shift self) (selection self))
      as (c & Hc & ->).
    { unfold len in *. rewrite <- Hl. lia. }
    exists c. split; [done|]. simpl. by destruct self.
  - destruct (list_getitem_in_range (matches self) (selection self) Hr)
      as (c & Hc & ->).
    exists c. split; [done|]. simpl. by destruct self.
Qed.

Lemma consistent_submit self self' :
  consistent self -> submit self = Ok self' -> consistent self'.
Proof.
  unfold submit.
  destruct (if shift self then _ else _) as [c|]; simpl; [|done].
  intros H [= <-]. by destruct self.
Qed.

Lemma handle_event_consistent self ev self' :
  consistent self -> handle_event self ev = Ok self' -> consistent self'.
Proof.
  intros Hc. destruct ev as [|k u|k|]; simpl.
  - intros [= <-]. by destruct self.
  - destruct k; simpl.
    + intros [= <-]. by destruct self.
    + intros [= <-]. by destruct self.
    + intros [= <-]. by destruct self.
    + destruct (update_text _) as [r|] eqn:E; simpl; [|done].
      intros [= <-]. by eapply consistent_update.
    + by apply consistent_submit.
    + intros [= <-]. destruct (shift self);
        [by apply consistent_select_prev|by apply consistent_select_next].
    + intros [= <-]. by apply consistent_select_prev.
    + intros [= <-]. by apply consistent_select_next.
    + destruct (update_text _) as [r|] eqn:E; simpl; [|done].
      intros [= <-]. by eapply consistent_update.
  - destruct k; intros [= <-]; by destruct self.
  - by intros [= <-].
Qed.

Lemma process_events_consistent evs : forall self self',
  consistent self -> process_events self evs = Ok self' -> consistent self'.
Proof.
  induction evs as [|ev evs IH]; intros self self' Hc H.
  - injection H as <-. done.
  - destruct ev as [|k u|k|]; cbn [process_events] in H.
    + by eapply handle_event_consistent.
    + destruct (handle_event self (KEYDOWN k u)) as [s1|] eqn:E; [|done].
      eapply IH; [|exact H]. by eapply handle_event_consistent.
    + destruct (handle_event self (KEYUP k)) as [s1|] eqn:E; [|done].
      eapply IH; [|exact H]. by eapply handle_event_consistent.
    + destruct (handle_event self OTHER_EVENT) as [s1|] eqn:E; [|done].
      eapply IH; [|exact H]. by eapply handle_event_consistent.
Qed.

Lemma run_consistent frames : forall self self',
  consistent self -> run self frames = Ok self' -> consistent self'.
Proof.
  induction frames as [|evs frames IH]; intros self self' Hc; simpl.
  - by intros [= <-].
  - destruct (done self); [by intros [= <-]|].
    destruct (process_events self evs) as [s1|] eqn:E; [|done]. simpl.
    pose proof (process_events_consistent _ _ _ Hc E).
    destruct (done s1); [by intros [= <-]|]. by apply IH.
Qed.

Lemma init_consistent dictionary app :
  init dictionary = Ok app -> consistent app.
Proof.
  unfold init. destruct (build_dictionary dictionary); [|done].
  simpl. intros [= <-]. unfold consistent. simpl. split; [done|]. lia.
Qed.

End EventFacts.

(** X6: along every run of the event loop from the constructed
    application, the two candidate lists have the same length and the
    cursor is a valid index of them ([0] when they are empty). *)
Theorem run_keeps_cursor_in_range
    (dictionary : list (string * Data)) (frames : list (list event))
    (app app' : App) :
  init dictionary = Ok app ->
  run app frames = Ok app' ->
  length (matches app') = length (matches_shift app') /\
  (0 <= selection app' < Z.max 1 (len (matches app')))%Z.
Proof.
  intros Hi Hr. eapply run_consistent; [|done]. by eapply init_consistent.
Qed.

Lemma run_keeps_cursor_in_range_witness :
  exists app',
    run (app_of dict_ab)
        [[KEYDOWN K_OTHER "x"; KEYDOWN K_LEFT ""]; [KEYDOWN K_LEFT ""]]
    = Ok app' /\
    length (matches app') = length (matches_shift app') /\
    (0 <= selection app' < Z.max 1 (len (matches app')))%Z.
Proof.
  eexists. split; [vm_compute; reflexivity|].
  apply (run_keeps_cursor_in_range dict_ab
           [[KEYDOWN K_OTHER "x"; KEYDOWN K_LEFT ""]; [KEYDOWN K_LEFT ""]]
           (app_of dict_ab)).
  - reflexivity.
  - vm_compute. reflexivity.
Defined.

(** X7: in a state of the event loop with at least one candidate,
    [submit] succeeds: it takes the candidate under the cursor, from
    [matches_shift] when shift is held and from [matches] otherwise,
    copies it to the clipboard, prints it as one more line and sets the
    quit flag; nothing else changes. *)
Theorem submit_delivers_the_selected_candidate (self : App) :
  consistent self -> matches self <> [] ->
  exists c,
    (if shift self then matches_shift self else matches self)
      !! Z.to_nat (selection self) = Some c /\
    submit self
    = Ok (set_stdout (stdout self ++ [c])
            (set_done true (set_clipboard c self))).
Proof. apply submit_ok. Qed.

Lemma submit_delivers_the_selected_candidate_witness :
  exists c, submit (three_candidates 2)
            = Ok (set_stdout [c] (set_done true
                    (set_clipboard c (three_candidates 2)))) /\ c = "c".
Proof.
  destruct (submit_delivers_the_selected_candidate (three_candidates 2))
    as (c & Hc & Hs).
  - split; [reflexivity|]. vm_compute. split; [discriminate|reflexivity].
  - discriminate.
  - exists c. split; [exact Hs|]. vm_compute in Hc. by injection Hc as <-.
Defined.

(** X8: in a state of the event loop the only event that raises is
    [RETURN] without a candidate. *)
Theorem only_return_without_candidates_raises (self : App) (ev : event) :
  consistent self ->
  (raises (handle_event self ev)
   <-> exists u, ev = KEYDOWN K_RETURN u /\ matches self = []).
Proof.
  intros Hc. split.
  - destruct ev as [|k u|k|]; simpl; try done.
    + destruct k; simpl; try done.
      * by destruct (update_text_Ok
          (set_input_text (Str.drop_last (input_text self)) self)) as [r ->].
      * intros Hr. exists u. split; [done|].
        destruct (decide (matches self = [])) as [|Hne]; [done|].
        destruct (submit_ok self Hc Hne) as (c & _ & Hs).
        rewrite Hs in Hr. done.
      * by destruct (update_text_Ok
          (set_input_text (input_text self +:+ u) self)) as [r ->].
    + by destruct k.
  - intros (u & -> & He). simpl. destruct Hc as [Hl _].
    rewrite submit_empty; [done..|].
    rewrite He in Hl. by destruct (matches_shift self).
Qed.

Lemma only_return_without_candidates_raises_witness :
  raises (handle_event (app_of dict_ab) (KEYDOWN K_RETURN "")) /\
  ~ raises (handle_event (three_candidates 1) (KEYDOWN K_RETURN "")).
Proof.
  split.
  - apply (only_return_without_candidates_raises (app_of dict_ab)).
    + split; [reflexivity|]. vm_compute. split; [discriminate|reflexivity].
    + by exists "".
  - intros H.
    apply (only_return_without_candidates_raises (three_candidates 1)) in H.
    + destruct H as (u & _ & H). discriminate H.
    + split; [reflexivity|]. vm_compute. split; [discriminate|reflexivity].
Defined.

(** ** Typing *)

Section TypingFacts.

Lemma resolve_from_index self1 self2 raw :
  index self1 = index self2 -> resolve self1 raw = resolve self2 raw.
Proof.
  intros Hi. unfold resolve.
  destruct (update_text_Ok (set_input_text raw self1)) as [r1 H1].
  destruct (update_text_Ok (set_input_text raw self2)) as [r2 H2].
  rewrite H1, H2. simpl. f_equal.
  destruct (decide (Str.strip raw = "")) as [Hb|Hb].
  - rewrite update_text_blank in H1 by by destruct self1.
    rewrite update_text_blank in H2 by by destruct self2.
    injection H1 as <-. injection H2 as <-.
    by destruct self1, self2.
  - pose proof (update_text_by_strategy _ _ _ Hb H1) as Hs1.
    pose proof (update_text_by_strategy _ _ _ Hb H2) as Hs2.
    rewrite Hi in Hs1.
    destruct (first_yielding _ _ _); destruct Hs1 as [-> ->];
      destruct Hs2 as [-> ->]; done.
Qed.

Lemma handle_key_other self u :
  exists r, update_text (set_input_text (input_text self +:+ u) self) = Ok r /\
            handle_event self (KEYDOWN K_OTHER u) = Ok r.1 /\
            index r.1 = index self /\
            input_text r.1 = input_text self +:+ u /\
            resolve self (input_text self +:+ u)
            = Ok (matches r.1, matches_shift r.1).
Proof.
  destruct (update_text_Ok (set_input_text (input_text self +:+ u) self))
    as [r Hr].
  exists r. split; [done|]. simpl. unfold resolve. rewrite Hr. simpl.
  split; [done|].
  apply update_text_session in Hr as [(Hi & Ht & _) _].
  rewrite Hi, Ht. by destruct self.
Qed.

Lemma handle_key_backspace self :
  exists r : App * option bool,
            handle_event self (KEYDOWN K_BACKSPACE "") = Ok r.1 /\
            index r.1 = index self /\
            input_text r.1 = Str.drop_last (input_text self) /\
            resolve self (Str.drop_last (input_text self))
            = Ok (matches r.1, matches_shift r.1).
Proof.
  destruct (update_text_Ok
              (set_input_text (Str.drop_last (input_text self)) self))
    as [r Hr].
  exists r. simpl. unfold resolve. rewrite Hr. simpl.
  split; [done|].
  apply update_text_session in Hr as [(Hi & Ht & _) _].
  rewrite Hi, Ht. by destruct self.
Qed.

Lemma append_assoc (a b c : string) : (a +:+ b) +:+ c = a +:+ (b +:+ c).
Proof.
  induction a as [|x a IH]; [done|].
  change (String x ((a +:+ b) +:+ c) = String x (a +:+ (b +:+ c))).
  by rewrite IH.
Qed.

Lemma append_empty_r (a : string) : a +:+ "" = a.
Proof.
  induction a as [|x a IH]; [done|].
  change (String x (a +:+ "") = String x a). by rewrite IH.
Qed.

Lemma drop_last_append a c : Str.drop_last (a +:+ String c "") = a.
Proof.
  induction a as [|x a IH]; [done|].
  change (String x a +:+ String c "") with (String x (a +:+ String c "")).
  destruct (a +:+ String c "") as [|y t] eqn:E.
  - by destruct a.
  - change (Str.drop_last (String x (String y t)))
      with (String x (Str.drop_last (String y t))).
    by rewrite IH.
Qed.

End TypingFacts.

(** ** What the events leave alone *)

(** X9: no event changes the index, no event clears the quit flag once
    it is set, and no event other than [RETURN] touches the clipboard or
    prints. *)
Theorem events_keep_index_and_quit_flag (self self' : App) (ev : event) :
  handle_event self ev = Ok self' ->
  index self' = index self /\
  (done self = true -> done self' = true) /\
  ((forall u, ev <> KEYDOWN K_RETURN u) ->
   clipboard self' = clipboard self /\ stdout self' = stdout self).
Proof.
  assert (Hup : forall st r, update_text st = Ok r ->
            index r.1 = index st /\ done r.1 = done st /\
            clipboard r.1 = clipboard st /\ stdout r.1 = stdout st).
  { intros st r [(? & ? & ? & ? & ?) _]%update_text_session. done. }
  assert (Hnext : forall st, index (select_next st) = index st /\
            done (select_next st) = done st /\
            clipboard (select_next st) = clipboard st /\
            stdout (select_next st) = stdout st).
  { intros st. unfold select_next. destruct (truthy _); by destruct st. }
  assert (Hprev : forall st, index (select_prev st) = index st /\
            done (select_prev st) = done st /\
            clipboard (select_prev st) = clipboard st /\
            stdout (select_prev st) = stdout st).
  { intros st. unfold select_prev. destruct (truthy _); by destruct st. }
  destruct ev as [|k u|k|]; simpl.
  - intros [= <-]. by destruct self.
  - destruct k; simpl.
    + intros [= <-]. by destruct self.
    + intros [= <-]. by destruct self.
    + intros [= <-]. by destruct self.
    + destruct (update_text _) as [r|] eqn:E; simpl; [|done].
      intros [= <-]. destruct (Hup _ _ E) as (-> & -> & -> & ->).
      by destruct self.
    + unfold submit.
      destruct (if shift self then _ else _) as [c|]; simpl; [|done].
      intros [= <-]. split; [by destruct self|]. split; [by destruct self|].
      intros Hu. by destruct (Hu u).
    + intros [= <-]. destruct (shift self).
      * destruct (Hprev self) as (-> & -> & -> & ->). done.
      * destruct (Hnext self) as (-> & -> & -> & ->). done.
    + intros [= <-]. destruct (Hprev self) as (-> & -> & -> & ->). done.
    + intros [= <-]. destruct (Hnext self) as (-> & -> & -> & ->). done.
    + destruct (update_text _) as [r|] eqn:E; simpl; [|done].
      intros [= <-]. destruct (Hup _ _ E) as (-> & -> & -> & ->).
      by destruct self.
  - destruct k; intros [= <-]; by destruct self.
  - by intros [= <-].
Qed.

Lemma events_keep_index_and_quit_flag_witness :
  exists self',
    handle_event (cancel (app_of dict_ab)) (KEYDOWN K_OTHER "x") = Ok self' /\
    index self' = index (cancel (app_of dict_ab)) /\ done self' = true.
Proof.
  destruct (handle_key_other (cancel (app_of dict_ab)) "x")
    as (r & _ & He & _).
  exists r.1. split; [exact He|].
  destruct (events_keep_index_and_quit_flag _ _ _ He) as (Hi & Hd & _).
  split; [exact Hi|]. apply Hd. reflexivity.
Defined.


(** X10: typing key by key gives the result of resolving the whole
    text at once: after the key events for the texts [us] (at least
    one), the raw input is the old one followed by all of them, and the
    two candidate lists are those that [resolve] gives for that input in
    the state before typing. *)
Theorem typing_resolves_the_whole_text (us : list string) :
  forall self : App,
  us <> [] ->
  exists self',
    process_events self (typing us) = Ok self' /\
    input_text self' = input_text self +:+ foldr String.append "" us /\
    resolve self (input_text self +:+ foldr String.append "" us)
    = Ok (matches self', matches_shift self').
Proof.
  induction us as [|u us IH]; intros self Hne; [done|].
  destruct (handle_key_other self u) as (r & _ & He & Hi & Ht & Hres).
  unfold typing. rewrite fmap_cons. cbn [process_events]. rewrite He.
  simpl mbind. fold (typing us).
  destruct us as [|u' us].
  - exists r.1. simpl. rewrite append_empty_r. done.
  - destruct (IH r.1) as (self' & Hev & Ht' & Hres'); [done|].
    exists self'. split; [exact Hev|].
    rewrite Ht in Ht', Hres'. rewrite append_assoc in Ht', Hres'.
    split; [exact Ht'|].
    rewrite <- Hres'. by apply resolve_from_index.
Qed.

Lemma typing_resolves_the_whole_text_witness :
  exists self',
    process_events (app_of dict_ab) (typing ["x"; " "; "y"]) = Ok self' /\
    input_text self' = "x y" /\
    resolve (app_of dict_ab) "x y" = Ok (matches self', matches_shift self').
Proof.
  destruct (typing_resolves_the_whole_text ["x"; " "; "y"] (app_of dict_ab))
    as (self' & H1 & H2 & H3); [discriminate|].
  exists self'. by split.
Defined.

(** X11: typing one character and deleting it with [BACKSPACE] gives
    back the raw input, and the candidates are those of that input. *)
Theorem backspace_undoes_a_typed_character (self : App) (c : ascii) :
  exists s1 s2,
    handle_event self (KEYDOWN K_OTHER (String c "")) = Ok s1 /\
    handle_event s1 (KEYDOWN K_BACKSPACE "") = Ok s2 /\
    input_text s2 = input_text self /\
    resolve self (input_text self) = Ok (matches s2, matches_shift s2).
Proof.
  destruct (handle_key_other self (String c "")) as (r & _ & He & Hi & Ht & _).
  destruct (handle_key_backspace r.1) as (r2 & He2 & Hi2 & Ht2 & Hres2).
  exists r.1, r2.1. split; [done|]. split; [done|].
  rewrite Ht, drop_last_append in Ht2, Hres2.
  split; [done|]. rewrite <- Hres2. apply resolve_from_index. by rewrite Hi.
Qed.

(** ** The case of the typed text *)

Section CaseFacts.

Lemma all_space_lower s : all_space (Str.lower s) = all_space s.
Proof.
  induction s as [|c s IH]; simpl; [done|].
  by rewrite is_space_lower_char, IH.
Qed.

Lemma strip_lower_blank raw1 raw2 :
  Str.lower raw1 = Str.lower raw2 ->
  Str.strip raw1 = "" <-> Str.strip raw2 = "".
Proof.
  intros H. rewrite !strip_empty_iff.
  by rewrite <- (all_space_lower raw1), H, all_space_lower.
Qed.

(** Lower-casing leaves the characters of a lower-cased text alone. *)
Lemma lower_string_of_list l :
  Str.lower (string_of_list_ascii l)
  = string_of_list_ascii (Str.lower_char <$> l).
Proof. induction l as [|c l IH]; simpl; [done|]. by rewrite IH. Qed.

Lemma split_from_lowercase s : forall cur w,
  Str.lower_char <$> cur = cur -> Str.lower s = s ->
  w ∈ Str.split_from cur s -> Str.lower w = w.
Proof.
  assert (Hrev : forall cur, Str.lower_char <$> cur = cur ->
            Str.lower (string_of_list_ascii (rev cur))
            = string_of_list_ascii (rev cur)).
  { intros cur Hc. rewrite lower_string_of_list. f_equal.
    change (Str.lower_char <$> rev cur) with (map Str.lower_char (rev cur)).
    rewrite map_rev. f_equal. exact Hc. }
  induction s as [|c s IH]; intros cur w Hcur Hs; simpl.
  - destruct cur as [|x cur]; [by intros ?%elem_of_nil|].
    intros ->%list_elem_of_singleton. by apply Hrev.
  - simpl in Hs. injection Hs as Hc Hs.
    destruct (Str.is_space c).
    + destruct cur as [|x cur]; [by apply IH|].
      intros [->|Hw]%elem_of_cons; [by apply Hrev|]. by apply (IH [] w).
    + apply IH; [|done]. rewrite fmap_cons. by rewrite Hc, Hcur.
Qed.

(** The words that the tag loop looks up are in lower case. *)
Lemma split_lower_lowercase raw w :
  w ∈ Str.split (Str.lower raw) -> Str.lower w = w.
Proof. apply split_from_lowercase; [done|apply lower_idem]. Qed.

Lemma chars_of_lowercase w ch :
  Str.lower w = w -> ch ∈ Str.chars_of w -> Str.lower ch = ch.
Proof.
  induction w as [|c w IH]; simpl; [by intros _ ?%elem_of_nil|].
  intros [= Hc Hw] [->|Hin]%elem_of_cons; [simpl; by rewrite Hc|].
  by apply IH.
Qed.

Lemma elem_of_concat {A} (x : A) (ls : list (list A)) :
  x ∈ concat ls -> exists l, x ∈ l /\ l ∈ ls.
Proof.
  induction ls as [|l ls IH]; simpl; [by intros ?%elem_of_nil|].
  intros [Hx|Hx]%elem_of_app.
  - exists l. split; [done|apply list_elem_of_here].
  - destruct (IH Hx) as (l' & ? & ?). exists l'.
    split; [done|by apply list_elem_of_further].
Qed.

(** The characters that the character loop looks up are in lower
    case. *)
Lemma input_chars_lowercase raw ch :
  ch ∈ input_chars (Str.split (Str.lower raw)) -> Str.lower ch = ch.
Proof.
  unfold input_chars. intros (l & Hch & Hl)%elem_of_concat.
  apply list_elem_of_fmap in Hl as (w & -> & Hw).
  eapply chars_of_lowercase; [|done]. by eapply split_lower_lowercase.
Qed.

Lemma count_tags_delete t tgs words : forall m,
  t ∉ words -> count_tags (delete t tgs) words m = count_tags tgs words m.
Proof.
  unfold count_tags.
  induction words as [|w words IH]; intros m Ht; simpl; [done|].
  apply not_elem_of_cons in Ht as [Hne Ht].
  rewrite lookup_delete_ne by done. by apply IH.
Qed.

Lemma count_char_delete t chs st ch :
  t <> ch -> count_char (delete t chs) st ch = count_char chs st ch.
Proof. intros Hne. unfold count_char. by rewrite lookup_delete_ne. Qed.

Lemma count_chars_delete t chs words st :
  t ∉ input_chars words ->
  count_chars (delete t chs) words st = count_chars chs words st.
Proof.
  unfold count_chars, input_chars.
  rewrite !(foldl_concat (count_char _) Str.chars_of).
  generalize (concat (Str.chars_of <$> words)). intros cs. revert st.
  induction cs as [|ch cs IH]; intros st Ht; simpl; [done|].
  apply not_elem_of_cons in Ht as [Hne Ht].
  rewrite count_char_delete by done. by apply IH.
Qed.

Lemma candidates_without t idx raw s :
  Str.lower t <> t ->
  candidates_of (without_tag t idx) (Str.lower raw) s
  = candidates_of idx (Str.lower raw) s /\
  candidates_of (without_char t idx) (Str.lower raw) s
  = candidates_of idx (Str.lower raw) s.
Proof.
  intros Ht.
  assert (H1 : t ∉ Str.split (Str.lower raw)).
  { intros Hin. by apply split_lower_lowercase in Hin. }
  assert (H2 : t ∉ input_chars (Str.split (Str.lower raw))).
  { intros Hin. by apply input_chars_lowercase in Hin. }
  destruct s; simpl; try done; unfold tag_counter, char_counter; simpl.
  - by rewrite count_tags_delete.
  - by rewrite count_chars_delete.
Qed.

Lemma resolve_by_candidates self1 self2 raw :
  lowercase_snippets (index self1) = lowercase_snippets (index self2) ->
  lowercase_names (index self1) = lowercase_names (index self2) ->
  (forall s, candidates_of (index self1) (Str.lower raw) s
             = candidates_of (index self2) (Str.lower raw) s) ->
  resolve self1 raw = resolve self2 raw.
Proof.
  intros _ _ Hc. unfold resolve.
  destruct (update_text_Ok (set_input_text raw self1)) as [r1 H1].
  destruct (update_text_Ok (set_input_text raw self2)) as [r2 H2].
  rewrite H1, H2. simpl. f_equal.
  destruct (decide (Str.strip raw = "")) as [Hb|Hb].
  - rewrite update_text_blank in H1 by by destruct self1.
    rewrite update_text_blank in H2 by by destruct self2.
    injection H1 as <-. injection H2 as <-.
    by destruct self1, self2.
  - pose proof (update_text_by_strategy _ _ _ Hb H1) as Hs1.
    pose proof (update_text_by_strategy _ _ _ Hb H2) as Hs2.
    assert (Hf : first_yielding (index self1) (Str.lower raw) strategies
                 = first_yielding (index self2) (Str.lower raw) strategies).
    { unfold strategies, first_yielding. by rewrite !Hc. }
    rewrite Hf in Hs1.
    destruct (first_yielding (index self2) _ _) as [s|].
    + destruct Hs1 as [-> ->]. destruct Hs2 as [-> ->]. by rewrite Hc.
    + destruct Hs1 as [-> ->]. by destruct Hs2 as [-> ->].
Qed.

End CaseFacts.

(** X12: the case of the typed text does not change which candidates
    are found: two texts with the same lower-case form give the same
    shift forms (and as many primary forms). *)
Theorem shift_forms_ignore_the_case_typed
    (self : App) (raw1 raw2 : string) (r1 r2 : list string * list string) :
  Str.lower raw1 = Str.lower raw2 ->
  resolve self raw1 = Ok r1 -> resolve self raw2 = Ok r2 ->
  r1.2 = r2.2 /\ length r1.1 = length r2.1.
Proof.
  intros Hl. unfold resolve.
  destruct (update_text_Ok (set_input_text raw1 self)) as [s1 H1].
  destruct (update_text_Ok (set_input_text raw2 self)) as [s2 H2].
  rewrite H1, H2. simpl. intros [= <-] [= <-]. simpl.
  destruct (decide (Str.strip raw1 = "")) as [Hb|Hb].
  - pose proof (proj1 (strip_lower_blank _ _ Hl) Hb) as Hb2.
    rewrite update_text_blank in H1 by by destruct self.
    rewrite update_text_blank in H2 by by destruct self.
    injection H1 as <-. injection H2 as <-. by destruct self.
  - assert (Hb2 : Str.strip raw2 <> "").
    { intros ?. apply Hb. by eapply strip_lower_blank. }
    pose proof (update_text_by_strategy _ _ _ Hb H1) as Hs1.
    pose proof (update_text_by_strategy _ _ _ Hb2 H2) as Hs2.
    rewrite Hl in Hs1.
    destruct (first_yielding _ _ _) as [s|]; destruct Hs1 as [-> ->];
      destruct Hs2 as [-> ->]; by rewrite ?length_fmap.
Qed.

Lemma shift_forms_ignore_the_case_typed_witness :
  exists r1 r2,
    resolve (app_of dict_pi) "mAth" = Ok r1 /\
    resolve (app_of dict_pi) "MATH" = Ok r2 /\
    r1.2 = r2.2 /\ length r1.1 = length r2.1.
Proof.
  eexists _, _. split; [vm_compute; reflexivity|].
  split; [vm_compute; reflexivity|].
  apply (shift_forms_ignore_the_case_typed (app_of dict_pi) "mAth" "MATH");
    vm_compute; reflexivity.
Defined.

(** X13: a key of the tag table or of the character table that has an
    upper-case letter is never looked up, because the typed text is
    lower-cased first: an index without that key resolves every text
    in the same way. *)
Theorem uppercase_keys_never_match
    (self self' : App) (t raw : string) :
  Str.lower t <> t ->
  index self' = without_tag t (index self)
  \/ index self' = without_char t (index self) ->
  resolve self' raw = resolve self raw.
Proof.
  intros Ht Hi. apply resolve_by_candidates.
  - by destruct Hi as [-> | ->].
  - by destruct Hi as [-> | ->].
  - intros s. destruct (candidates_without t (index self) raw s Ht).
    by destruct Hi as [-> | ->].
Qed.

Lemma uppercase_keys_never_match_witness :
  resolve (app_of dict_upper) "Math" = resolve (app_of dict_pi_plain) "Math" /\
  resolve (app_of dict_upper) "Math" = Ok ([], []).
Proof.
  assert (H : resolve (app_of dict_pi_plain) "Math"
              = resolve (app_of dict_upper) "Math").
  { apply (uppercase_keys_never_match (app_of dict_upper)
             (app_of dict_pi_plain) "Math" "Math").
    - vm_compute. discriminate.
    - left. vm_compute. reflexivity. }
  split; [by rewrite H|]. rewrite <- H. vm_compute. reflexivity.
Defined.

(** ** Which snippets the tag strategy counts *)

(** X14: on a built index, when neither exact lookup hits, the snippets
    that the tag strategy counts are exactly the lower-cased words of
    the dictionary entries that list a word of the lower-cased input
    among their tags. *)
Theorem tag_candidates_are_the_tagged_entries
    (dictionary : list (string * Data)) (self : App) (raw k : string)
    (r : App * option bool) :
  build_dictionary dictionary = Ok (index self) ->
  Str.strip raw <> "" ->
  lowercase_snippets (index self) !! Str.lower raw = None ->
  lowercase_names (index self) !! Str.lower raw = None ->
  update_text (set_input_text raw self) = Ok r ->
  k ∈ (tag_matches r.1).*1
  <-> exists item t, item ∈ dictionary /\ Str.lower item.1 = k /\
                     t ∈ Str.split (Str.lower raw) /\ declares_tag t item.
Proof.
  intros Hb Hnb Hs Hn Hr.
  destruct (ranked_outcome self raw Hnb r Hs Hn Hr) as (-> & _ & _).
  unfold tag_counter.
  rewrite (count_of_positive k _ (count_tags_positive _ _)).
  rewrite count_tags_count. unfold count_of. simpl.
  unfold build_dictionary in Hb.
  destruct (for_each_build_tables _ _ _ Hb) as (Ht & _).
  assert (Hfiled : forall t, filed_under (tags (index self)) k t
            <-> exists item, item ∈ dictionary /\ Str.lower item.1 = k
                             /\ declares_tag t item).
  { intros t. rewrite Ht. simpl. unfold filed_under at 1.
    rewrite lookup_empty. split; [intros [[]|?]; done|by right]. }
  split.
  - intros Hpos.
    destruct (filter (filed_under (tags (index self)) k)
                (Str.split (Str.lower raw))) as [|t l] eqn:E;
      [simpl in Hpos; lia|].
    assert (Hin : t ∈ filter (filed_under (tags (index self)) k)
                    (Str.split (Str.lower raw))).
    { rewrite E. apply list_elem_of_here. }
    apply list_elem_of_filter in Hin as [Hf Hin].
    apply Hfiled in Hf as (item & ? & ? & ?). by exists item, t.
  - intros (item & t & Hin & Hk & Ht' & Hd).
    assert (Hf : t ∈ filter (filed_under (tags (index self)) k)
                   (Str.split (Str.lower raw))).
    { apply list_elem_of_filter. split; [|done]. apply Hfiled. eauto. }
    destruct (filter _ _); [by apply elem_of_nil in Hf|]. simpl. lia.
Qed.

Lemma tag_candidates_are_the_tagged_entries_witness :
  exists r, update_text (set_input_text "q y" (app_of dict_ab)) = Ok r /\
            "a" ∈ (tag_matches r.1).*1.
Proof.
  destruct (update_text_Ok (set_input_text "q y" (app_of dict_ab)))
    as [r Hr].
  exists r. split; [exact Hr|].
  apply (tag_candidates_are_the_tagged_entries dict_ab (app_of dict_ab)
           "q y" "a" r).
  - reflexivity.
  - vm_compute. discriminate.
  - vm_compute. reflexivity.
  - vm_compute. reflexivity.
  - exact Hr.
  - exists ("A", entry "alpha" ["x"; "y"] []), "y".
    split; [apply list_elem_of_here|]. split; [reflexivity|].
    split; vm_compute; apply list_elem_of_further, list_elem_of_here.
Defined.

(** ** Leaving the loop *)

Lemma process_events_done evs : forall self self',
  done self = true -> process_events self evs = Ok self' ->
  done self' = true.
Proof.
  assert (Hstep : forall self ev self', done self = true ->
            handle_event self ev = Ok self' -> done self' = true).
  { intros self ev self' Hd He.
    destruct ev as [|k u|k|]; simpl in He.
    - injection He as <-. by destruct self.
    - destruct k; simpl in He;
        try (injection He as <-; by destruct self).
      + destruct (update_text _) as [r|] eqn:E; simpl in He; [|done].
        injection He as <-.
        apply update_text_session in E as [(_ & _ & -> & _) _].
        by destruct self.
      + unfold submit in He.
        destruct (if shift self then _ else _) as [c|]; simpl in He; [|done].
        injection He as <-. by destruct self.
      + injection He as <-. unfold select_prev, select_next.
        destruct (shift self), (truthy _); by destruct self.
      + injection He as <-. unfold select_prev.
        destruct (truthy _); by destruct self.
      + injection He as <-. unfold select_next.
        destruct (truthy _); by destruct self.
      + destruct (update_text _) as [r|] eqn:E; simpl in He; [|done].
        injection He as <-.
        apply update_text_session in E as [(_ & _ & -> & _) _].
        by destruct self.
    - destruct k; injection He as <-; by destruct self.
    - by injection He as <-. }
  induction evs as [|ev evs IH]; intros self self' Hd H.
  - by injection H as <-.
  - destruct ev as [|k u|k|]; cbn [process_events] in H.
    + by eapply Hstep.
    + destruct (handle_event self (KEYDOWN k u)) as [s1|] eqn:E; [|done].
      eapply IH; [|exact H]. by eapply Hstep.
    + destruct (handle_event self (KEYUP k)) as [s1|] eqn:E; [|done].
      eapply IH; [|exact H]. by eapply Hstep.
    + destruct (handle_event self OTHER_EVENT) as [s1|] eqn:E; [|done].
      eapply IH; [|exact H]. by eapply Hstep.
Qed.

(** X15: a [QUIT] event ends its frame: the events behind it are not
    handled, and if the frame gets as far as the [QUIT] the quit flag is
    set at its end; [ESCAPE] sets the flag too, but the rest of the
    frame is still handled. *)
Theorem quit_ends_the_frame (self : App) (pre post : list event) :
  process_events self (pre ++ QUIT :: post)
  = process_events self (pre ++ [QUIT]) /\
  (forall self', process_events self (pre ++ QUIT :: post) = Ok self' ->
                 done self' = true) /\
  (forall u self',
     process_events self (KEYDOWN K_ESCAPE u :: post) = Ok self' ->
     done self' = true).
Proof.
  split; [|split].
  - revert self. induction pre as [|ev pre IH]; intros self; [done|].
    destruct ev as [|k u|k|]; [done|..];
      rewrite <- !app_comm_cons; cbn [process_events];
      (destruct (handle_event self _) as [s1|]; [|done]); apply IH.
  - revert self. induction pre as [|ev pre IH]; intros self self'.
    + simpl. intros [= <-]. by destruct self.
    + destruct ev as [|k u|k|].
      * simpl. intros [= <-]. by destruct self.
      * rewrite <- app_comm_cons. cbn [process_events].
        destruct (handle_event self _) as [s1|]; [|done]. apply IH.
      * rewrite <- app_comm_cons. cbn [process_events].
        destruct (handle_event self _) as [s1|]; [|done]. apply IH.
      * rewrite <- app_comm_cons. cbn [process_events].
        destruct (handle_event self _) as [s1|]; [|done]. apply IH.
  - intros u self'. cbn [process_events].
    change (handle_event self (KEYDOWN K_ESCAPE u)) with (Ok (cancel self)).
    simpl mbind. apply process_events_done. by destruct self.
Qed.

Lemma quit_ends_the_frame_witness :
  process_events (app_of dict_ab)
    [KEYDOWN K_OTHER "x"; QUIT; KEYDOWN K_RETURN ""]
  = process_events (app_of dict_ab) [KEYDOWN K_OTHER "x"; QUIT] /\
  exists self',
    process_events (app_of dict_ab) [KEYDOWN K_ESCAPE ""; KEYDOWN K_OTHER "x"]
    = Ok self' /\ done self' = true /\ input_text self' = "x".
Proof.
  split.
  - apply (quit_ends_the_frame (app_of dict_ab) [KEYDOWN K_OTHER "x"]
             [KEYDOWN K_RETURN ""]).
  - eexists. split; [vm_compute; reflexivity|]. split; [|reflexivity].
    apply (quit_ends_the_frame (app_of dict_ab) [] [KEYDOWN K_OTHER "x"])
      with (u := "").
    vm_compute. reflexivity.
Defined.

(** ** Candidates and dictionary words *)

Section CanonicalFacts.
Variable dictionary : list (string * Data).
Variable idx : Index.
Hypothesis built : build_dictionary dictionary = Ok idx.

(** In a built index a snippet is filed under a tag exactly when an
    entry whose word lower-cases to it lists the tag. *)
Lemma built_tags_filed k t :
  filed_under (tags idx) k t <-> tagged_by dictionary k t.
Proof.
  pose proof built as Hb. unfold build_dictionary in Hb.
  destruct (for_each_build_tables _ _ _ Hb) as (Ht & _).
  rewrite Ht. unfold tagged_by. rewrite Exists_exists. simpl.
  unfold filed_under at 1. rewrite lookup_empty.
  split; [intros [[]|?]; done|by right].
Qed.

Lemma images_of_words (f : string -> string) cs :
  Forall (fun c => exists w, w ∈ words_of dictionary /\ c = f w) cs ->
  exists ws, Forall (fun w => w ∈ words_of dictionary) ws /\ cs = f <$> ws.
Proof.
  induction 1 as [|c cs (w & Hw & ->) _ (ws & Hws & ->)].
  - by exists [].
  - exists (w :: ws). split; [by constructor|done].
Qed.

Lemma built_key_canonical k :
  is_Some (lowercase_snippets idx !! k) ->
  exists w, w ∈ words_of dictionary /\ k = Str.lower w.
Proof.
  destruct (build_dictionary_ok _ _ built) as (Hs & _).
  intros [w Hw]. destruct (Hs _ _ Hw) as [Hin <-]. by exists w.
Qed.

(** Every candidate of a strategy is the stored form of a dictionary
    word. *)
Lemma built_candidates_canonical key s :
  exists ws, Forall (fun w => w ∈ words_of dictionary) ws /\
             candidates_of idx key s = stored_form s <$> ws.
Proof.
  apply images_of_words.
  destruct (build_dictionary_ok _ _ built) as (Hs & Ht & Hc & Hn).
  destruct s; cbn [candidates_of stored_form].
  - destruct (lowercase_snippets idx !! key) as [w|] eqn:Hw;
      [|apply Forall_nil_2].
    apply Forall_singleton. exists w. split; [|done]. by apply (Hs key).
  - destruct (lowercase_names idx !! key) as [k|] eqn:Hk;
      [|apply Forall_nil_2].
    apply Forall_singleton. apply built_key_canonical. by eapply Hn.
  - destruct (count_tags_keys (tags idx)
                (fun c => exists w, w ∈ words_of dictionary
                                    /\ c = Str.lower w)
                (Str.split key)) as [_ Hall].
    { intros t st x Hst Hx. apply built_key_canonical. by eapply Ht. }
    apply Forall_forall. intros c Hin%elem_of_ranked.
    rewrite Forall_forall in Hall. by apply Hall.
  - destruct (count_chars_keys (chars idx)
                (fun c => exists w, w ∈ words_of dictionary
                                    /\ c = Str.lower w)
                (Str.split key)) as [_ Hall].
    { intros t st x Hst Hx. apply built_key_canonical. by eapply Hc. }
    apply Forall_forall. intros c Hin%elem_of_ranked.
    rewrite Forall_forall in Hall. by apply Hall.
Qed.

End CanonicalFacts.

Lemma all_lowercase_not_leading raw :
  all_lowercase raw = true -> leading_uppercase raw = false.
Proof.
  unfold all_lowercase, leading_uppercase. destruct raw as [|c raw]; [done|].
  simpl. by destruct (Str.is_upper_char c).
Qed.

(** ** Case adaptation, in terms of the dictionary words *)

(** C3, as the code has it: the candidates of the strategy that decides
    are stored forms of dictionary words [w] (the word itself for an
    exact literal match, [lower w] for an exact-name, tag or character
    match). The shift form is the upper-case form of the stored form.
    When the input starts with an upper-case letter the primary form is
    the shift form, for every strategy. Otherwise an exact literal
    match gives the word [w] as the dictionary has it, and, when the
    input has no upper-case letter, the three other strategies give
    [lower w]. *)
Theorem case_forms_of_candidates
    (dictionary : list (string * Data)) (self : App) (raw : string)
    (s : strategy) :
  build_dictionary dictionary = Ok (index self) ->
  Str.strip raw <> "" ->
  first_yielding (index self) (Str.lower raw) strategies = Some s ->
  exists ws r,
    Forall (fun w => w ∈ words_of dictionary) ws /\
    candidates_of (index self) (Str.lower raw) s = stored_form s <$> ws /\
    resolve self raw = Ok r /\
    r.2 = Str.upper <$> (stored_form s <$> ws) /\
    (leading_uppercase raw = true ->
     r.1 = Str.upper <$> (stored_form s <$> ws)) /\
    (leading_uppercase raw = false -> s = ExactLiteral -> r.1 = ws) /\
    (all_lowercase raw = true -> s <> ExactLiteral ->
     r.1 = Str.lower <$> ws).
Proof.
  intros Hb Hnb Hfirst.
  destruct (built_candidates_canonical dictionary (index self) Hb
              (Str.lower raw) s) as (ws & Hws & Hcs).
  exists ws. eexists. split; [done|]. split; [done|].
  split; [by apply (forms_of_stored_candidates dictionary)|].
  rewrite Hcs. cbn [fst snd]. split; [done|]. split; [|split].
  - intros Hl. apply list_fmap_ext. intros i c _.
    destruct s; unfold primary_form, exact_form, case_adapt; by rewrite Hl.
  - intros Hl ->. rewrite <- list_fmap_compose.
    rewrite <- (list_fmap_id ws) at 2. apply list_fmap_ext. intros i w _.
    cbn [primary_form stored_form compose]. unfold exact_form.
    by rewrite Hl.
  - intros Hall Hs. pose proof (all_lowercase_not_leading raw Hall) as Hl.
    rewrite <- list_fmap_compose. apply list_fmap_ext. intros i w _.
    destruct s; [done|..];
      cbn [primary_form stored_form compose]; unfold case_adapt;
      rewrite Hl, Hall; apply lower_idem.
Qed.

(** The word [Pi] typed as [pi] is returned as the dictionary has it,
    typed as [PI] in upper case; found by its tag [math] it is returned
    in lower case. *)
Lemma case_forms_of_candidates_witness :
  resolve (app_of dict_pi) "pi" = Ok (["Pi"], ["PI"]) /\
  resolve (app_of dict_pi) "PI" = Ok (["PI"], ["PI"]) /\
  resolve (app_of dict_pi) "math" = Ok (["pi"], ["PI"]).
Proof.
  split; [|split].
  - destruct (case_forms_of_candidates dict_pi (app_of dict_pi) "pi"
                ExactLiteral)
      as (ws & r & _ & Hcs & -> & H2 & _ & H1 & _);
      [reflexivity|vm_compute; discriminate|reflexivity|].
    destruct r as [r1 r2]. cbn [fst snd] in *.
    rewrite H1, H2 by reflexivity. cbn [stored_form] in *.
    rewrite list_fmap_id in *. by rewrite <- Hcs.
  - destruct (case_forms_of_candidates dict_pi (app_of dict_pi) "PI"
                ExactLiteral)
      as (ws & r & _ & Hcs & -> & H2 & H1 & _);
      [reflexivity|vm_compute; discriminate|reflexivity|].
    destruct r as [r1 r2]. cbn [fst snd] in *.
    rewrite H1, H2 by reflexivity. by rewrite <- Hcs.
  - destruct (case_forms_of_candidates dict_pi (app_of dict_pi) "math"
                TagMatch)
      as (ws & r & _ & Hcs & -> & H2 & _ & _ & H1);
      [reflexivity|vm_compute; discriminate|reflexivity|].
    destruct r as [r1 r2]. cbn [fst snd] in *.
    rewrite H1, H2 by done.
    change (stored_form TagMatch) with Str.lower in *.
    by rewrite <- Hcs.
Defined.

(** The case adapter applied to the dictionary words does not give the
    primary forms of the code. On [Pi: {name: circle, tags: [math]}]
    the exact literal match of [pi] returns [Pi], where the adapter
    lower-cases; the tag match of [mAth] returns [pi], where the
    adapter leaves [Pi] as the dictionary has it. *)
Lemma primary_forms_differ_from_case_adapter :
  ~ (forall (dictionary : list (string * Data)) (self : App) (raw : string),
       build_dictionary dictionary = Ok (index self) ->
       Str.strip raw <> "" ->
       first_yielding (index self) (Str.lower raw) strategies
       = Some ExactLiteral ->
       exists ws,
         Forall (fun w => w ∈ words_of dictionary) ws /\
         resolve self raw
         = Ok (case_adapt raw <$> ws, Str.upper <$> ws)) /\
  ~ (forall (dictionary : list (string * Data)) (self : App) (raw : string),
       build_dictionary dictionary = Ok (index self) ->
       Str.strip raw <> "" ->
       first_yielding (index self) (Str.lower raw) strategies
       = Some TagMatch ->
       exists ws,
         Forall (fun w => w ∈ words_of dictionary) ws /\
         resolve self raw
         = Ok (case_adapt raw <$> ws, Str.upper <$> ws)).
Proof.
  split; intros H.
  - destruct (H dict_pi (app_of dict_pi) "pi") as (ws & Hws & Hr);
      [reflexivity|vm_compute; discriminate|reflexivity|].
    change (resolve (app_of dict_pi) "pi") with
      (Ok (A := list string * list string) (["Pi"], ["PI"])) in Hr.
    destruct ws as [|w [|w' ws]]; try discriminate Hr.
    rewrite Forall_singleton in Hws.
    change (words_of dict_pi) with ["Pi"] in Hws.
    apply list_elem_of_singleton in Hws as ->.
    vm_compute in Hr. discriminate Hr.
  - destruct (H dict_pi (app_of dict_pi) "mAth") as (ws & Hws & Hr);
      [reflexivity|vm_compute; discriminate|reflexivity|].
    change (resolve (app_of dict_pi) "mAth") with
      (Ok (A := list string * list string) (["pi"], ["PI"])) in Hr.
    destruct ws as [|w [|w' ws]]; try discriminate Hr.
    rewrite Forall_singleton in Hws.
    change (words_of dict_pi) with ["Pi"] in Hws.
    apply list_elem_of_singleton in Hws as ->.
    vm_compute in Hr. discriminate Hr.
Qed.

(** ** The order of the strategies against the stripped input *)

(** C5, where the code departs from it: on [dict_overlap] the text [pi]
    followed by a space satisfies the exact literal strategy of the
    specification (its stripped lower-case form is a word), yet the
    code returns the result of the tag strategy; the text [circle]
    after a space satisfies the exact name strategy, yet the code
    returns the result of the character strategy. Without the spaces
    both return the exact match. The exact lookups of [update_text] use
    the lower-cased text as typed, not the stripped one. *)
Theorem spaced_exact_match_yields_to_later_strategy :
  spec_exact_literal (index (app_of dict_overlap)) "pi " = Some "pi" /\
  resolve (app_of dict_overlap) "pi " = Ok (["tau"], ["TAU"]) /\
  resolve (app_of dict_overlap) "pi" = Ok (["pi"], ["PI"]) /\
  spec_exact_literal (index (app_of dict_overlap)) " circle" = None /\
  spec_exact_name (index (app_of dict_overlap)) " circle" = Some "pi" /\
  resolve (app_of dict_overlap) " circle" = Ok (["phi"], ["PHI"]) /\
  resolve (app_of dict_overlap) "circle" = Ok (["pi"], ["PI"]).
Proof. repeat split; vm_compute; reflexivity. Qed.

(** ** The tag strategy, in terms of the dictionary entries *)

(** C6, as the code has it: past the exact lookups the tag strategy
    returns, and the counter of a lower-cased word [k] is the number of
    words of the lower-cased stripped input, repeated words included,
    that some entry whose word lower-cases to [k] lists as a tag; the
    counted words are exactly those with a positive count, each once,
    and the result is their ranking in ascending order of the counts,
    cut to the first [MAX_MATCHES]. *)
Theorem tag_counts_every_word_and_ranks_ascending
    (dictionary : list (string * Data)) (self : App) (raw : string) :
  build_dictionary dictionary = Ok (index self) ->
  Str.strip raw <> "" ->
  lowercase_snippets (index self) !! Str.lower raw = None ->
  lowercase_names (index self) !! Str.lower raw = None ->
  exists r,
    update_text (set_input_text raw self) = Ok r /\
    let words := Str.split (Str.lower (Str.strip raw)) in
    let tm := tag_matches r.1 in
    (forall k, count_of k tm
               = length (filter (tagged_by dictionary k) words)) /\
    NoDup tm.*1 /\
    (forall k, k ∈ tm.*1 <-> (0 < count_of k tm)%nat) /\
    (tm <> [] ->
       exists ranked,
         ranked ≡ₚ tm.*1 /\
         StronglySorted (fun a b => (count_of a tm <= count_of b tm)%nat)
                        ranked /\
         matches_shift r.1 = Str.upper <$> take MAX_MATCHES ranked /\
         matches r.1
         = loop_form (leading_uppercase raw) (Str.islower raw)
             <$> take MAX_MATCHES ranked /\
         (length (matches r.1) <= MAX_MATCHES)%nat).
Proof.
  intros Hb Hnb Hs Hn.
  destruct (update_text_Ok (set_input_text raw self)) as [r Hr].
  exists r. split; [done|]. intros words tm.
  destruct (tag_counter_on_any_index self raw r Hnb Hs Hn Hr)
    as (Hcount & Hkeys & Hrank).
  fold words tm in Hcount, Hkeys, Hrank.
  split_and!; [|..|done|done].
  - intros k. rewrite Hcount. f_equal. apply list_filter_iff.
    intros t. by apply built_tags_filed.
  - destruct (ranked_outcome self raw Hnb r Hs Hn Hr) as (Htm & _).
    unfold tm. rewrite Htm. apply count_tags_NoDup, NoDup_nil_2.
Qed.

(** On [A: tags x, y] and [B: tags x] the text [x y] counts two for the
    first and one for the second, and the second comes first. On
    [Pi: tags x, y] and [PI: tags x] the two entries share the counter
    of [pi], and the text [x y] counts two for it. *)
Lemma tag_counts_every_word_and_ranks_ascending_witness :
  (exists r, update_text (set_input_text "x y" (app_of dict_ab)) = Ok r /\
             count_of "a" (tag_matches r.1) = 2%nat /\
             count_of "b" (tag_matches r.1) = 1%nat /\
             matches r.1 = ["b"; "a"]) /\
  (exists r, update_text (set_input_text "x y" (app_of dict_case)) = Ok r /\
             count_of "pi" (tag_matches r.1) = 2%nat /\
             matches r.1 = ["pi"]).
Proof.
  split.
  - destruct (tag_counts_every_word_and_ranks_ascending dict_ab
                (app_of dict_ab) "x y") as (r & Hr & Hcount & _);
      [reflexivity|vm_compute; discriminate|reflexivity|reflexivity|].
    exists r. split; [exact Hr|]. rewrite !Hcount.
    split; [vm_compute; reflexivity|]. split; [vm_compute; reflexivity|].
    vm_compute in Hr. injection Hr as <-. reflexivity.
  - destruct (tag_counts_every_word_and_ranks_ascending dict_case
                (app_of dict_case) "x y") as (r & Hr & Hcount & _);
      [reflexivity|vm_compute; discriminate|reflexivity|reflexivity|].
    exists r. split; [exact Hr|]. rewrite !Hcount.
    split; [vm_compute; reflexivity|].
    vm_compute in Hr. injection Hr as <-. reflexivity.
Defined.

(** ** The two candidate lists *)

(** X4: on an index built from a dictionary, after every run of
    [update_text] the result holds at most [MAX_MATCHES] candidates,
    [matches_shift] is the upper-case form of [matches] position by
    position, and the shift flag is released. The pairing rests on the
    candidates of the tag and character tables being lower-cased words
    and on [lower] and [upper] being idempotent. *)
Theorem resolution_is_capped_and_paired
    (dictionary : list (string * Data)) (self : App)
    (r : App * option bool) :
  build_dictionary dictionary = Ok (index self) ->
  update_text self = Ok r ->
  (length (matches r.1) <= MAX_MATCHES)%nat /\
  matches_shift r.1 = Str.upper <$> matches r.1 /\
  shift r.1 = false.
Proof.
  intros Hb Hr.
  split; [|split]; [| |by apply update_text_session in Hr as [_ ?]].
  - destruct (update_text_candidates self r Hr)
      as (cs & form & Hl & _ & _ & -> & _).
    by rewrite length_fmap.
  - destruct (decide (Str.strip (input_text self) = "")) as [H|H].
    { rewrite update_text_blank in Hr by done. injection Hr as <-.
      by destruct self. }
    rewrite <- (set_input_text_same self) in Hr.
    pose proof (update_text_by_strategy _ _ _ H Hr) as Hst.
    destruct (first_yielding _ _ _) as [s|]; destruct Hst as [-> ->];
      [|done].
    rewrite <- list_fmap_compose. apply list_fmap_ext. intros i c Hc.
    apply list_elem_of_lookup_2 in Hc. cbn [compose].
    assert (Hlow : s = TagMatch \/ s = CharMatch -> Str.lower c = c).
    { destruct (built_candidates_canonical dictionary (index self) Hb
                  (Str.lower (input_text self)) s) as (ws & _ & Hcs).
      rewrite Hcs in Hc. apply list_elem_of_fmap in Hc as (w & -> & _).
      intros [->| ->]; apply lower_idem. }
    destruct s; unfold code_form, exact_form, loop_form;
      repeat match goal with |- context [if ?b then _ else _] =>
               destruct b end;
      rewrite ?upper_idem, ?Hlow; auto.
Qed.

(** With the shift key held and the text [x y] on [A: tags x, y] and
    [B: tags x], the two lists are paired and the shift flag is
    released. *)
Lemma resolution_is_capped_and_paired_witness :
  exists r, update_text (set_shift true (set_input_text "x y" (app_of dict_ab)))
            = Ok r /\
            matches r.1 = ["b"; "a"] /\ matches_shift r.1 = ["B"; "A"] /\
            shift r.1 = false.
Proof.
  destruct (update_text_Ok
              (set_shift true (set_input_text "x y" (app_of dict_ab))))
    as [r Hr].
  exists r. split; [exact Hr|].
  destruct (resolution_is_capped_and_paired dict_ab
              (set_shift true (set_input_text "x y" (app_of dict_ab))) r)
    as (_ & -> & ->); [reflexivity|exact Hr|].
  vm_compute in Hr. injection Hr as <-. vm_compute. done.
Defined.
